(** * JarPy: the aggregation and chunked-archiving pipeline of [jarpy.py]

    A shallow embedding of [create_context_files], [create_archives] and the
    two loops of [main] (Individual and Combined mode), together with the
    properties the specification states about them.

    Modelling choices, all of them visible in the definitions below:
    - a Python [str] is a list of code points ([pystr]); a [pathlib.Path] is
      the list of its components ([Path]), compared component-wise as
      pathlib does;
    - Python list objects live in a heap ([lists]) and are addressed by
      location, so that [files.sort()] is an update of the caller's object;
    - file objects live in a table ([handles]); a handle keeps what was
      written through it and reaches the disk when it is closed;
    - a Python exception is the [Raise] outcome; the world is threaded
      through both outcomes, as a raised exception does not undo effects;
    - the external collaborators (the decompiler, the scratch tree, [stat]
      and [read_bytes]) are the fields of [Env];
    - the text layer is POSIX ([\n] is written as it is); logging and the
      final [input()] prompt have no counterpart. *)

From Stdlib Require Import QArith.
From stdpp Require Import base numbers list option gmap sorting lexico pretty strings.

Open Scope Z_scope.

(** ** Python strings *)

(** A [str] is a sequence of Unicode code points. *)
Definition pystr := list N.

Fixpoint pystr_of_string (s : string) : pystr :=
  match s with
  | EmptyString => []
  | String a s' => Ascii.N_of_ascii a :: pystr_of_string s'
  end.

Notation "'s<' x '>'" := (pystr_of_string x) (at level 0, x at level 0, format "s< x >").

Definition NL : N := 10%N.
Definition CR : N := 13%N.
Definition DOT : N := 46%N.

(** [c * n] for a one-character string [c]. *)
Definition str_repeat (c : N) (n : nat) : pystr := replicate n c.

(** [s.startswith('.')] *)
Definition startswith_dot (s : pystr) : bool :=
  match s with
  | c :: _ => bool_decide (c = DOT)
  | [] => false
  end.

(** [s.rfind('.')], with [None] for Python's [-1]. *)
Fixpoint rfind_dot (s : pystr) : option nat :=
  match s with
  | [] => None
  | c :: s' =>
      match rfind_dot s' with
      | Some i => Some (S i)
      | None => if bool_decide (c = DOT) then Some 0%nat else None
      end
  end.

(** [str(n)] for an integer. *)
Definition str_of_Z (n : Z) : pystr := pystr_of_string (pretty n).

(** [sep.join(parts)] *)
Fixpoint str_join (sep : pystr) (parts : list pystr) : pystr :=
  match parts with
  | [] => []
  | [p] => p
  | p :: rest => p ++ sep ++ str_join sep rest
  end.

(** ** Paths *)

(** A path is the list of its components; pathlib compares, hashes and
    orders paths by exactly this list. *)
Definition Path := list pystr.

(** [p / name] for a one-component [name]. *)
Definition path_div (p : Path) (name : pystr) : Path := p ++ [name].

(** [p.name] *)
Definition path_name (p : Path) : pystr := default [] (last p).

(** [p.suffix]: the last dot of the name and what follows it, unless the dot
    is the first or the last character of the name. *)
Definition path_suffix (p : Path) : pystr :=
  let name := path_name p in
  match rfind_dot name with
  | Some i => if bool_decide (0 < i)%nat && bool_decide (i < length name - 1)%nat
              then drop i name else []
  | None => []
  end.

(** [p.stem] *)
Definition path_stem (p : Path) : pystr :=
  let name := path_name p in
  match rfind_dot name with
  | Some i => if bool_decide (0 < i)%nat && bool_decide (i < length name - 1)%nat
              then take i name else name
  | None => name
  end.

(** [str(p)] for a relative path. *)
Definition path_str (p : Path) : pystr :=
  match p with
  | [] => [DOT]
  | _ => str_join s<"/"> p
  end.

(** [p.relative_to(base)]: the components of [p] after those of [base];
    [None] stands for the [ValueError] pathlib raises otherwise. *)
Fixpoint strip_prefix (base p : Path) : option Path :=
  match base, p with
  | [], _ => Some p
  | b :: base', c :: p' => if decide (b = c) then strip_prefix base' p' else None
  | _ :: _, [] => None
  end.

(** [p < q] on paths: lexicographic on components, each compared by code
    points. *)
Definition path_lt (p q : Path) : Prop := lexico p q.

(** The order [list.sort()] sorts by: [q < p] does not hold. *)
Definition path_le (p q : Path) : Prop := ¬ path_lt q p.

Global Instance path_lt_dec : RelDecision path_lt.
Proof. intros p q. unfold path_lt. apply _. Defined.

Global Instance path_le_dec : RelDecision path_le.
Proof. intros p q. unfold path_le. apply _. Defined.

(** [sorted(files)], and the content of the list object after
    [files.sort()]. *)
Definition sorted (files : list Path) : list Path := merge_sort path_le files.

(** ** Floats *)

(** A Python [float]: a finite rational, an infinity or a NaN. *)
Inductive pyfloat :=
  | FFinite (q : Q)
  | FPosInf
  | FNegInf
  | FNaN.

(** The largest finite double. *)
Definition DBL_MAX : Q := inject_Z ((2 ^ 53 - 1) * 2 ^ 971).

(** [x * k] for a float [x] and a positive power of two [k]: exact, unless
    the product leaves the range of finite doubles. *)
Definition fmul_pow2 (x : pyfloat) (k : Z) : pyfloat :=
  match x with
  | FFinite q =>
      let r := (q * inject_Z k)%Q in
      if Qle_bool r DBL_MAX then
        if Qle_bool (- DBL_MAX) r then FFinite r else FNegInf
      else FPosInf
  | other => other
  end.

(** [n > x] for an integer [n] and a float [x]. *)
Definition int_gt_float (n : N) (x : pyfloat) : bool :=
  match x with
  | FFinite q => negb (Qle_bool (inject_Z (Z.of_N n)) q)
  | FPosInf => false
  | FNegInf => true
  | FNaN => false
  end.

(** ** Text decoding *)

Definition text := list N.

Definition in_range (lo hi b : N) : bool := ((lo <=? b) && (b <=? hi))%N.

(** [bytes.decode('utf-8')], strict: [None] stands for [UnicodeDecodeError].
    Overlong forms, surrogates and code points past U+10FFFF are refused. *)
Fixpoint decode_utf8 (bs : list N) : option text :=
  match bs with
  | [] => Some []
  | b0 :: r0 =>
      if (b0 <? 0x80)%N then cons b0 <$> decode_utf8 r0
      else if in_range 0xC2 0xDF b0 then
        match r0 with
        | b1 :: r1 =>
            if in_range 0x80 0xBF b1
            then cons ((b0 - 0xC0) * 64 + (b1 - 0x80))%N <$> decode_utf8 r1
            else None
        | _ => None
        end
      else if in_range 0xE0 0xEF b0 then
        match r0 with
        | b1 :: b2 :: r2 =>
            let lo := if (b0 =? 0xE0)%N then 0xA0%N else 0x80%N in
            let hi := if (b0 =? 0xED)%N then 0x9F%N else 0xBF%N in
            if in_range lo hi b1 && in_range 0x80 0xBF b2
            then cons ((b0 - 0xE0) * 4096 + (b1 - 0x80) * 64 + (b2 - 0x80))%N
                   <$> decode_utf8 r2
            else None
        | _ => None
        end
      else if in_range 0xF0 0xF4 b0 then
        match r0 with
        | b1 :: b2 :: b3 :: r3 =>
            let lo := if (b0 =? 0xF0)%N then 0x90%N else 0x80%N in
            let hi := if (b0 =? 0xF4)%N then 0x8F%N else 0xBF%N in
            if in_range lo hi b1 && in_range 0x80 0xBF b2 && in_range 0x80 0xBF b3
            then cons ((b0 - 0xF0) * 262144 + (b1 - 0x80) * 4096
                       + (b2 - 0x80) * 64 + (b3 - 0x80))%N
                   <$> decode_utf8 r3
            else None
        | _ => None
        end
      else None
  end.

(** [bytes.decode('latin-1', errors='replace')]: every byte is the code
    point of the same value, so nothing is ever replaced. *)
Definition decode_latin1 (bs : list N) : text := bs.

(** Text-mode reading translates [\r\n] and a lone [\r] to [\n]. *)
Fixpoint universal_newlines (t : text) : text :=
  match t with
  | [] => []
  | c :: r =>
      if bool_decide (c = CR) then
        NL :: match r with
              | c' :: r' => if bool_decide (c' = NL) then universal_newlines r'
                            else universal_newlines r
              | [] => []
              end
      else c :: universal_newlines r
  end.

(** The number of bytes [str.encode('utf-8', errors='replace')] produces
    for one code point (a lone surrogate becomes [?]). *)
Definition utf8_char_size (c : N) : N :=
  if (c <? 0x80)%N then 1
  else if (c <? 0x800)%N then 2
  else if in_range 0xD800 0xDFFF c then 1
  else if (c <? 0x10000)%N then 3
  else 4.

(** The size on disk of a text written through a UTF-8 handle. *)
Definition utf8_size (t : text) : N := foldr (λ c n, utf8_char_size c + n)%N 0%N t.

(** ** The world: list objects, output files, file objects, archives *)

Inductive exn :=
  | FileNotFoundError
  | KeyError
  | UnicodeDecodeError
  | ValueError
  | ZeroDivisionError
  | FileExistsError.

Global Instance exn_eq_dec : EqDecision exn.
Proof. solve_decision. Defined.

Inductive open_mode := ModeW | ModeA.

(** A text file object: the file it was opened on, its mode, everything
    written through it, and whether it has been closed. What was written
    reaches the disk when the handle is closed. *)
Record Handle := mkHandle {
  h_path : Path;
  h_mode : open_mode;
  h_written : text;
  h_closed : bool
}.

(** A ZIP archive: its file name and its members, each the file added and
    the name it is stored under. *)
Record Archive := mkArchive {
  zip_filename : Path;
  zip_members : list (Path * pystr)
}.

(** [open_files] and [created_context_files] are the dict and the set the
    Combined branch of [main] creates and shares with its [finally] clause;
    the dict keeps its insertion order. *)
Record World := mkWorld {
  lists : gmap nat (list Path);
  disk : gmap Path text;
  handles : list Handle;
  dirs : gset Path;
  zips : list Archive;
  open_files : list (pystr * nat);
  created_context_files : list Path
}.

Definition set_lists (f : gmap nat (list Path) → gmap nat (list Path)) (w : World) : World :=
  mkWorld (f (lists w)) (disk w) (handles w) (dirs w) (zips w)
    (open_files w) (created_context_files w).
Definition set_disk (f : gmap Path text → gmap Path text) (w : World) : World :=
  mkWorld (lists w) (f (disk w)) (handles w) (dirs w) (zips w)
    (open_files w) (created_context_files w).
Definition set_handles (f : list Handle → list Handle) (w : World) : World :=
  mkWorld (lists w) (disk w) (f (handles w)) (dirs w) (zips w)
    (open_files w) (created_context_files w).
Definition set_dirs (f : gset Path → gset Path) (w : World) : World :=
  mkWorld (lists w) (disk w) (handles w) (f (dirs w)) (zips w)
    (open_files w) (created_context_files w).
Definition set_zips (f : list Archive → list Archive) (w : World) : World :=
  mkWorld (lists w) (disk w) (handles w) (dirs w) (f (zips w))
    (open_files w) (created_context_files w).
Definition set_open_files (f : list (pystr * nat) → list (pystr * nat)) (w : World) : World :=
  mkWorld (lists w) (disk w) (handles w) (dirs w) (zips w)
    (f (open_files w)) (created_context_files w).
Definition set_created (f : list Path → list Path) (w : World) : World :=
  mkWorld (lists w) (disk w) (handles w) (dirs w) (zips w)
    (open_files w) (f (created_context_files w)).

(** The external collaborators: whether the input directory is one and the
    [*.jar] files [glob] finds in it; for each input archive, whether the
    decompiler succeeds on it, the scratch directory it is extracted into
    and the entries [rglob] finds there (relative to the scratch directory,
    each with [is_file()]); and for each path what [stat] and a read of the
    bytes give, [None] being [FileNotFoundError]. *)
Record Env := mkEnv {
  is_dir : Path → bool;
  glob_jars : Path → list Path;
  decompile_jar : Path → bool;
  temp_dir : Path → Path;
  tree : Path → list (Path * bool);
  st_size : Path → option N;
  read_bytes : Path → option (list Byte.byte)
}.

(** ** Computations that may raise *)

Inductive outcome (A : Type) :=
  | Ok (a : A)
  | Raise (e : exn).
Arguments Ok {A} a.
Arguments Raise {A} e.

Definition IO (A : Type) : Type := World → outcome A * World.

Definition ret {A} (a : A) : IO A := λ w, (Ok a, w).
Definition raise {A} (e : exn) : IO A := λ w, (Raise e, w).
Definition bind {A B} (m : IO A) (k : A → IO B) : IO B :=
  λ w, match m w with
       | (Ok a, w') => k a w'
       | (Raise e, w') => (Raise e, w')
       end.

Notation "'let*' x ':=' m 'in' k" := (bind m (λ x, k))
  (at level 10, x name, m at level 100, k at level 200, only parsing).
Notation "m ;;; k" := (bind m (λ _, k))
  (at level 100, k at level 200, right associativity, only parsing).

(** [try: m except e: handler] *)
Definition try_except {A} (m : IO A) (e : exn) (handler : IO A) : IO A :=
  λ w, match m w with
       | (Raise e', w') => if decide (e' = e) then handler w' else (Raise e', w')
       | r => r
       end.

(** [try: m finally: cleanup] *)
Definition try_finally {A} (m : IO A) (cleanup : IO unit) : IO A :=
  λ w, match m w with
       | (r, w') =>
           match cleanup w' with
           | (Ok _, w'') => (r, w'')
           | (Raise e, w'') => (Raise e, w'')
           end
       end.

(** [for x in l: s = body(s, x)], the loop's variables threaded as [s]. *)
Fixpoint for_fold {A S} (body : S → A → IO S) (l : list A) (s : S) : IO S :=
  match l with
  | [] => ret s
  | x :: l' => let* s' := body s x in for_fold body l' s'
  end.

Definition for_each {A} (body : A → IO unit) (l : list A) : IO unit :=
  for_fold (λ _ x, body x) l tt.

Definition get {A} (f : World → A) : IO A := λ w, (Ok (f w), w).
Definition modify (f : World → World) : IO unit := λ w, (Ok tt, f w).

(** *** List objects *)

(** A new list object holding [l]. *)
Definition list_new (l : list Path) : IO nat :=
  λ w, let loc := fresh (dom (lists w)) in
       (Ok loc, set_lists <[loc := l]> w).

Definition list_get (loc : nat) : IO (list Path) :=
  get (λ w, default [] (lists w !! loc)).

(** [files.sort()]: the object at [loc] is replaced by its sorted content. *)
Definition list_sort (loc : nat) : IO unit :=
  modify (set_lists (alter sorted loc)).

(** *** File objects *)

(** [open(p, mode, encoding='utf-8', errors='replace')]: mode [w] creates or
    truncates the file, mode [a] creates it when missing and keeps what is
    there. The new handle is the last of the table. *)
Definition open_file (p : Path) (m : open_mode) : IO nat :=
  λ w, let w1 := match m with
                 | ModeW => set_disk <[p := []]> w
                 | ModeA => match disk w !! p with
                            | Some _ => w
                            | None => set_disk <[p := []]> w
                            end
                 end in
       (Ok (length (handles w)), set_handles (λ hs, hs ++ [mkHandle p m [] false]) w1).

(** [handle.write(t)]; writing to a closed file is a [ValueError]. *)
Definition write (h : nat) (t : text) : IO unit :=
  λ w, match handles w !! h with
       | Some hd =>
           if h_closed hd then (Raise ValueError, w)
           else (Ok tt, set_handles
                          <[h := mkHandle (h_path hd) (h_mode hd) (h_written hd ++ t) false]> w)
       | None => (Raise ValueError, w)
       end.

(** [handle.close()]: what was written is appended to the file; closing a
    closed handle does nothing. *)
Definition close (h : nat) : IO unit :=
  λ w, match handles w !! h with
       | Some hd =>
           if h_closed hd then (Ok tt, w)
           else (Ok tt,
                 set_handles <[h := mkHandle (h_path hd) (h_mode hd) (h_written hd) true]>
                   (set_disk (λ d, <[h_path hd := default [] (d !! h_path hd) ++ h_written hd]> d) w))
       | None => (Ok tt, w)
       end.

(** [p.mkdir(parents=True, exist_ok=...)] *)
Definition mkdir (exist_ok : bool) (p : Path) : IO unit :=
  λ w, if decide (p ∈ dirs w)
       then (if exist_ok then (Ok tt, w) else (Raise FileExistsError, w))
       else (Ok tt, set_dirs (λ d, {[p]} ∪ d) w).

(** *** Reading the scratch tree *)

(** [p.stat().st_size] *)
Definition stat_size (env : Env) (p : Path) : IO N :=
  match st_size env p with
  | Some n => ret n
  | None => raise FileNotFoundError
  end.

Inductive encoding := Utf8 | Latin1Replace.

(** [p.read_text(encoding=...)] *)
Definition read_text (env : Env) (p : Path) (enc : encoding) : IO text :=
  match read_bytes env p with
  | None => raise FileNotFoundError
  | Some bs =>
      let raw := map Byte.to_N bs in
      match enc with
      | Utf8 =>
          match decode_utf8 raw with
          | Some t => ret (universal_newlines t)
          | None => raise UnicodeDecodeError
          end
      | Latin1Replace => ret (universal_newlines (decode_latin1 raw))
      end
  end.

(** The aggregators' read: UTF-8 first, Latin-1 on [UnicodeDecodeError]. *)
Definition read_content (env : Env) (p : Path) : IO text :=
  try_except (read_text env p Utf8) UnicodeDecodeError (read_text env p Latin1Replace).

(** [p.relative_to(base)] *)
Definition relative_to (p base : Path) : IO Path :=
  match strip_prefix base p with
  | Some r => ret r
  | None => raise ValueError
  end.

(** ** The extension classifier *)

Definition BINARY_EXTENSIONS : list pystr :=
  [ s<".png">; s<".jpg">; s<".jpeg">; s<".gif">; s<".bmp">; s<".ico">; s<".webp">;
    s<".ogg">; s<".mp3">; s<".wav">; s<".flac">;
    s<".ttf">; s<".woff">; s<".woff2">; s<".eot">;
    s<".bin">; s<".dat">; s<".class"> ].

(** [ext in BINARY_EXTENSIONS] *)
Definition is_binary (ext : pystr) : bool := bool_decide (ext ∈ BINARY_EXTENSIONS).

(** [ext[1:] if ext.startswith('.') else ext] *)
Definition ext_stem (ext : pystr) : pystr :=
  if startswith_dot ext then drop 1 ext else ext.

(** ** [create_context_files] *)

(** The variables of the loop over one key's files. *)
Record KeyState := mkKeyState {
  context_files : list Path;
  part_num : Z;
  current_size : N;
  outfile : option nat
}.

(** The header written before a file's content. *)
Definition context_header (rel : Path) : text :=
  [NL] ++ str_repeat 61 25 ++ s<" START: "> ++ path_str rel ++ s<" "> ++ str_repeat 61 25
       ++ [NL; NL].

(** [f"{base_filename_stem}_{part_num}.txt"] *)
Definition context_filename (ext : pystr) (part : Z) : pystr :=
  ext_stem ext ++ s<"_context"> ++ s<"_"> ++ str_of_Z part ++ s<".txt">.

(** [if outfile and (current_size + file_size) > max_size_bytes and
    current_size > 0]: the bundle is closed and the next part begins. *)
Definition rotate_bundle (max_size_bytes : pyfloat) (st : KeyState) (file_size : N)
    : IO KeyState :=
  match outfile st with
  | Some h =>
      if int_gt_float (current_size st + file_size) max_size_bytes
         && bool_decide (0 < current_size st)%N
      then close h;;;
           ret (mkKeyState (context_files st) (part_num st + 1) 0 None)
      else ret st
  | None => ret st
  end.

(** [if outfile is None]: the part's file is opened for writing and
    recorded in [context_files]. *)
Definition ensure_open (output_path : Path) (ext : pystr) (st : KeyState) : IO KeyState :=
  match outfile st with
  | None =>
      let context_filepath := path_div output_path (context_filename ext (part_num st)) in
      let* h := open_file context_filepath ModeW in
      ret (mkKeyState (context_files st ++ [context_filepath])
             (part_num st) (current_size st) (Some h))
  | Some _ => ret st
  end.

(** The header and the content of the file are written to the open bundle
    and the file's size is added to the running size. *)
Definition append_file (env : Env) (src_path : Path) (st : KeyState)
    (file_path : Path) (file_size : N) : IO KeyState :=
  match outfile st with
  | None => raise ValueError
  | Some h =>
      let* rel := relative_to file_path src_path in
      write h (context_header rel);;;
      let* content := read_content env file_path in
      write h content;;;
      ret (mkKeyState (context_files st) (part_num st)
             (current_size st + file_size) (outfile st))
  end.

(** The body of [for file_path in files]: a file whose [stat] fails is
    skipped. *)
Definition context_file_step (env : Env) (output_path src_path : Path)
    (max_size_bytes : pyfloat) (ext : pystr) (st : KeyState) (file_path : Path)
    : IO KeyState :=
  match st_size env file_path with
  | None => ret st
  | Some file_size =>
      let* st1 := rotate_bundle max_size_bytes st file_size in
      let* st2 := ensure_open output_path ext st1 in
      append_file env src_path st2 file_path file_size
  end.

(** The body of [for ext, files in grouped_files.items()]; [files] is the
    location of the key's list object. *)
Definition context_key_step (env : Env) (output_path src_path : Path)
    (max_size_bytes : pyfloat) (created : list Path) (item : pystr * nat)
    : IO (list Path) :=
  let '(ext, files) := item in
  if is_binary ext then ret created
  else
    list_sort files;;;
    let* fs := list_get files in
    let* st := for_fold (context_file_step env output_path src_path max_size_bytes ext)
           fs (mkKeyState created 1 0 None) in
    match outfile st with
    | Some h => close h
    | None => ret tt
    end;;;
    ret (context_files st).

(** [max_size_mb * 1024 * 1024] *)
Definition mb_to_bytes (max_size_mb : pyfloat) : pyfloat :=
  fmul_pow2 (fmul_pow2 max_size_mb 1024) 1024.

Definition create_context_files (env : Env) (grouped_files : list (pystr * nat))
    (output_path src_path : Path) (max_size_mb : pyfloat) : IO (list Path) :=
  let max_size_bytes := mb_to_bytes max_size_mb in
  for_fold (context_key_step env output_path src_path max_size_bytes) grouped_files [].

(** ** [create_archives] *)

(** [a // b] *)
Definition floordiv (a b : Z) : IO Z :=
  if decide (b = 0) then raise ZeroDivisionError else ret (a `div` b).

(** [range(start, stop, step)], its length computed as CPython does. *)
Definition py_range (start stop step : Z) : IO (list Z) :=
  if decide (step = 0) then raise ValueError
  else
    let '(lo, hi, st) := if decide (0 < step) then (start, stop, step)
                         else (stop, start, - step) in
    let n := if decide (lo < hi) then 1 + (hi - 1 - lo) `div` st else 0 in
    ret (map (λ k : nat, start + Z.of_nat k * step) (seq 0 (Z.to_nat n))).

(** Where a slice bound lands in a list of length [n]. *)
Definition slice_bound (n i : Z) : Z :=
  if decide (i < 0) then Z.max 0 (i + n) else Z.min i n.

(** [l[i:j]] *)
Definition py_slice {A} (l : list A) (i j : Z) : list A :=
  let n := Z.of_nat (length l) in
  let a := slice_bound n i in
  let b := slice_bound n j in
  take (Z.to_nat (b - a)) (drop (Z.to_nat a) l).

(** [zipfile.ZipFile(p, 'w', ZIP_DEFLATED)]: a new, empty archive, the last
    of [zips]. *)
Definition zip_open (p : Path) : IO nat :=
  λ w, (Ok (length (zips w)), set_zips (λ zs, zs ++ [mkArchive p []]) w).

(** [zipf.write(file_path, arcname)]; the member's bytes are not modelled. *)
Definition zip_write (z : nat) (file_path : Path) (arc : pystr) : IO unit :=
  modify (set_zips (alter (λ a, mkArchive (zip_filename a)
                                   (zip_members a ++ [(file_path, arc)])) z)).

(** [file_path.relative_to(src_path) if src_path else file_path.name] *)
Definition arcname (file_path : Path) (src_path : option Path) : IO pystr :=
  match src_path with
  | Some base => let* rel := relative_to file_path base in ret (path_str rel)
  | None => ret (path_name file_path)
  end.

(** [f'{prefix}_{archive_num}.zip'] *)
Definition zip_name (prefix : pystr) (archive_num : Z) : pystr :=
  prefix ++ s<"_"> ++ str_of_Z archive_num ++ s<".zip">.

(** The body of [for i in range(0, len(files), chunk_size)]. *)
Definition archive_step (fs : list Path) (output_path : Path) (chunk_size : Z)
    (prefix : pystr) (src_path : option Path) (i : Z) : IO unit :=
  let chunk := py_slice fs i (i + chunk_size) in
  let* q := floordiv i chunk_size in
  let archive_num := q + 1 in
  let* zipf := zip_open (path_div output_path (zip_name prefix archive_num)) in
  for_each (λ file_path,
              let* arc := arcname file_path src_path in
              zip_write zipf file_path arc) chunk.

(** [files] is the location of the caller's list object. *)
Definition create_archives (files : nat) (output_path : Path) (chunk_size : Z)
    (prefix : pystr) (src_path : option Path) : IO unit :=
  let* fs0 := list_get files in
  match fs0 with
  | [] => ret tt
  | _ :: _ =>
      let* num_archives := floordiv (Z.of_nat (length fs0) + chunk_size - 1) chunk_size in
      list_sort files;;;
      let* fs := list_get files in
      let* starts := py_range 0 (Z.of_nat (length fs)) chunk_size in
      for_each (archive_step fs output_path chunk_size prefix src_path) starts
  end.

(** ** [main] *)

Inductive archive_mode := Direct | Context.

(** The parsed command line. *)
Record Args := mkArgs {
  args_combine : bool;
  args_mode : archive_mode;
  args_size : Z;
  args_max_size : pyfloat
}.

(** [groups[k].append(p)] on a [defaultdict(list)] that keeps insertion
    order. *)
Fixpoint group_add (k : pystr) (p : Path) (groups : list (pystr * list Path))
    : list (pystr * list Path) :=
  match groups with
  | [] => [(k, [p])]
  | (k', ps) :: rest =>
      if decide (k = k') then (k', ps ++ [p]) :: rest
      else (k', ps) :: group_add k p rest
  end.

(** [d[k]] on a dict in insertion order. *)
Fixpoint dict_get {V} (d : list (pystr * V)) (k : pystr) : option V :=
  match d with
  | [] => None
  | (k', v) :: rest => if decide (k = k') then Some v else dict_get rest k
  end.

(** [s.add(p)] *)
Definition set_add (p : Path) (s : list Path) : list Path :=
  if decide (p ∈ s) then s else s ++ [p].

Section Orchestrator.

(** [str.lower()], which Python defines over all of Unicode. *)
Variable lower : pystr → pystr.

(** [file_path.suffix.lower() or 'no_extension'] *)
Definition classify (file_path : Path) : pystr :=
  match lower (path_suffix file_path) with
  | [] => s<"no_extension">
  | ext => ext
  end.

(** The files [temp_dir.rglob('*')] yields for one input archive. *)
Definition scratch_files (env : Env) (jar_path : Path) : list Path :=
  omap (λ e : Path * bool, if e.2 then Some (temp_dir env jar_path ++ e.1) else None)
       (tree env jar_path).

(** The grouping loop over the scratch tree. *)
Definition group_files (files : list Path) : list (pystr * list Path) :=
  foldl (λ groups file_path, group_add (classify file_path) file_path groups) [] files.

(** The list objects of a grouping, one per key. *)
Definition alloc_groups (groups : list (pystr * list Path)) : IO (list (pystr * nat)) :=
  for_fold (λ acc item, let* loc := list_new item.2 in ret (acc ++ [(item.1, loc)]))
    groups [].

(** The body of the Individual loop over the input archives. *)
Definition individual_unit (env : Env) (args : Args) (script_dir jar_path : Path) : IO unit :=
  let output_path := path_div script_dir (s<"_decompiled_"> ++ path_stem jar_path) in
  mkdir true output_path;;;
  let tdir := temp_dir env jar_path in
  if decompile_jar env jar_path then
    match args_mode args with
    | Context =>
        let* grouped_files := alloc_groups (group_files (scratch_files env jar_path)) in
        let* produced := create_context_files env grouped_files output_path tdir
                           (args_max_size args) in
        let* produced_list := list_new produced in
        create_archives produced_list output_path (args_size args)
          (s<"context_"> ++ path_stem jar_path) None
    | Direct =>
        let* all_files := list_new (scratch_files env jar_path) in
        create_archives all_files output_path (args_size args)
          (s<"direct_"> ++ path_stem jar_path) (Some tdir)
    end
  else ret tt.

(** The header of a record in Combined mode. *)
Definition combined_header (jar_name file_name : pystr) : text :=
  [NL] ++ str_repeat 61 30 ++ [NL] ++ s<"=== SOURCE JAR: "> ++ jar_name ++ [NL]
       ++ s<"=== FILE:       "> ++ file_name ++ [NL] ++ str_repeat 61 30 ++ [NL; NL].

(** The body of [for file_path in sorted(files)] in Combined mode. *)
Definition combined_file_step (env : Env) (jar_path : Path) (handle : nat)
    (file_path : Path) : IO unit :=
  write handle (combined_header (path_name jar_path) (path_name file_path));;;
  let* content := read_content env file_path in
  write handle content.

(** [f"{...}_context_1.txt"] *)
Definition combined_filename (ext : pystr) : pystr :=
  ext_stem ext ++ s<"_context_1.txt">.

(** The body of [for ext, files in current_jar_groups.items()]. *)
Definition combined_key_step (env : Env) (output_path jar_path : Path)
    (item : pystr * list Path) : IO unit :=
  let '(ext, files) := item in
  if is_binary ext then ret tt
  else
    let* opened := get open_files in
    match dict_get opened ext with
    | None =>
        let context_filepath := path_div output_path (combined_filename ext) in
        let* h := open_file context_filepath ModeA in
        modify (set_open_files (λ d, d ++ [(ext, h)]));;;
        modify (set_created (set_add context_filepath))
    | Some _ => ret tt
    end;;;
    let* opened := get open_files in
    match dict_get opened ext with
    | None => raise KeyError
    | Some handle => for_each (combined_file_step env jar_path handle) (sorted files)
    end.

(** The body of the Combined loop over the input archives. *)
Definition combined_unit (env : Env) (output_path jar_path : Path) : IO unit :=
  if decompile_jar env jar_path then
    for_each (combined_key_step env output_path jar_path)
      (group_files (scratch_files env jar_path))
  else ret tt.

(** The [finally] clause: every handle of [open_files] is closed. *)
Definition close_open_files : IO unit :=
  let* opened := get open_files in
  for_each (λ kv : pystr * nat, close kv.2) opened.

(** The Combined branch of [main]. *)
Definition main_combined (env : Env) (args : Args) (script_dir input_dir : Path)
    (jar_files : list Path) : IO unit :=
  let output_path :=
    path_div script_dir (s<"_decompiled_combined_"> ++ path_name input_dir) in
  mkdir true output_path;;;
  modify (set_open_files (λ _, []));;;
  modify (set_created (λ _, []));;;
  try_finally (for_each (combined_unit env output_path) jar_files) close_open_files;;;
  let* created := get created_context_files in
  let* created_list := list_new created in
  create_archives created_list output_path (args_size args) s<"combined_context"> None.

(** The Individual branch of [main]. *)
Definition main_individual (env : Env) (args : Args) (script_dir : Path)
    (jar_files : list Path) : IO unit :=
  for_each (individual_unit env args script_dir) jar_files.

Definition main (env : Env) (args : Args) (script_dir input_dir : Path) : IO unit :=
  if negb (is_dir env input_dir) then ret tt
  else
    match sorted (glob_jars env input_dir) with
    | [] => ret tt
    | jar_files =>
        if args_combine args then main_combined env args script_dir input_dir jar_files
        else main_individual env args script_dir jar_files
    end.

End Orchestrator.

(** ** [setup_decompiler] and [cli] *)

(** The files of the script directory, in the order a listing gives them,
    each with its bytes. *)
Notation Dir := (list (pystr * list Byte.byte)).

(** [p.exists()] for a file [name] of the directory. *)
Definition dir_exists (d : Dir) (name : pystr) : bool := bool_decide (name ∈ d.*1).

(** [p.unlink()] *)
Definition dir_unlink (name : pystr) (d : Dir) : Dir := filter (λ e, e.1 ≠ name) d.

(** [open(p, 'wb')] followed by the writes of [content] and the close: the
    file is created, or replaced when it exists. *)
Definition dir_write (name : pystr) (content : list Byte.byte) (d : Dir) : Dir :=
  dir_unlink name d ++ [(name, content)].

(** [d[name]], the bytes of a file. *)
Fixpoint dir_read (d : Dir) (name : pystr) : option (list Byte.byte) :=
  match d with
  | [] => None
  | (n, c) :: rest => if decide (name = n) then Some c else dir_read rest name
  end.

(** [src.rename(dst)]: [dst] is replaced when it exists. The rename of a
    missing file, which raises in Python, changes nothing here; the
    function below only renames the file it has just written. *)
Definition dir_rename (src dst : pystr) (d : Dir) : Dir :=
  match dir_read d src with
  | Some content => dir_unlink src (dir_unlink dst d) ++ [(dst, content)]
  | None => d
  end.

(** [s.endswith(suffix)] *)
Definition endswith (suffix s : pystr) : bool := bool_decide (suffix `suffix_of` s).

(** [sub in s] *)
Fixpoint contains (sub s : pystr) : bool :=
  bool_decide (sub `prefix_of` s)
  || match s with
     | [] => false
     | _ :: s' => contains sub s'
     end.

(** A name matches the pattern [vineflower-*.jar]. *)
Definition is_vineflower_jar (name : pystr) : bool :=
  bool_decide (s<"vineflower-"> `prefix_of` name)
  && bool_decide (s<".jar"> `suffix_of` drop 11 name).

(** [script_dir.glob('vineflower-*.jar')], as names. *)
Definition dir_glob (d : Dir) : list pystr := filter (λ n, is_vineflower_jar n = true) d.*1.

(** [Path(name).with_suffix(suffix)], as a name. *)
Definition with_suffix (name suffix : pystr) : pystr := path_stem [name] ++ suffix.

(** One asset of a release: [a['name']] and [a['browser_download_url']].
    The name is taken to be a file name, a single path component. *)
Record Asset := mkAsset {
  asset_name : pystr;
  asset_url : pystr
}.

(** What the request to the releases API gives, through [raise_for_status]
    and [response.json()]: a [RequestException] or [JSONDecodeError], or
    the assets of the latest release. *)
Inductive api_reply :=
  | ApiError
  | ApiRelease (assets : list Asset).

(** What the streamed download gives: a [RequestException] before the part
    file is opened, one after [got] was written to it, or the whole
    content. *)
Inductive download :=
  | DownloadRefused
  | DownloadBroken (got : list Byte.byte)
  | DownloadOk (content : list Byte.byte).

Record Net := mkNet {
  api_latest : api_reply;
  fetch : pystr → download
}.

(** [next((a for a in l if P a), None)] *)
Fixpoint find_first {A} (P : A → bool) (l : list A) : option A :=
  match l with
  | [] => None
  | a :: rest => if P a then Some a else find_first P rest
  end.

Definition is_jar (a : Asset) : bool := endswith s<".jar"> (asset_name a).

Definition is_full_jar (a : Asset) : bool :=
  is_jar a && negb (contains s<"-slim"> (asset_name a)).

(** The asset to download: the first full jar, else the first jar. *)
Definition pick_asset (assets : list Asset) : option Asset :=
  match find_first is_full_jar assets with
  | Some a => Some a
  | None => find_first is_jar assets
  end.

(** The [except] clause: the part file is removed when the download had
    begun and left one, and the first [vineflower-*.jar] of the directory,
    if any, is the decompiler. [temp] is [None] when [temp_download_path]
    is not yet a local variable. *)
Definition fallback (temp : option pystr) (d : Dir) : option pystr * Dir :=
  let d1 := match temp with
            | Some t => if dir_exists d t then dir_unlink t d else d
            | None => d
            end in
  (head (dir_glob d1), d1).

(** [setup_decompiler(script_dir)]: the name of the decompiler's jar in
    the script directory, if there is one to use, and the directory it
    leaves. *)
Definition setup_decompiler (net : Net) (d : Dir) : option pystr * Dir :=
  match api_latest net with
  | ApiError => fallback None d
  | ApiRelease assets =>
      match pick_asset assets with
      | None => (None, d)
      | Some asset =>
          let latest_jar_name := asset_name asset in
          if dir_exists d latest_jar_name then (Some latest_jar_name, d)
          else
            let d1 := foldl (λ d old_jar, dir_unlink old_jar d) d (dir_glob d) in
            let temp_download := with_suffix latest_jar_name s<".jar.part"> in
            match fetch net (asset_url asset) with
            | DownloadRefused => fallback (Some temp_download) d1
            | DownloadBroken got =>
                fallback (Some temp_download) (dir_write temp_download got d1)
            | DownloadOk content =>
                (Some latest_jar_name,
                 dir_rename temp_download latest_jar_name
                   (dir_write temp_download content d1))
            end
      end
  end.

(** [cli()]: [main] runs when [setup_decompiler] gives a decompiler. *)
Definition cli (lower : pystr → pystr) (net : Net) (env : Env) (args : Args)
    (script_dir input_dir : Path) (d : Dir) : IO unit * Dir :=
  match setup_decompiler net d with
  | (Some _, d') => (main lower env args script_dir input_dir, d')
  | (None, d') => (ret tt, d')
  end.

(** * Properties *)

(** The formatted strings are kept folded in the proofs. *)
Global Opaque context_header combined_header context_filename combined_filename zip_name.

(** ** The order on paths and [sorted] *)

Global Instance path_le_total : Total path_le.
Proof.
  intros p q. unfold path_le, path_lt.
  destruct (trichotomy lexico p q) as [Hlt | [-> | Hgt]].
  - left. intros Hqp. exact (irreflexivity lexico p (transitivity Hlt Hqp)).
  - left. apply irreflexivity, _.
  - right. intros Hpq. exact (irreflexivity lexico p (transitivity Hpq Hgt)).
Qed.

Global Instance path_le_trans : Transitive path_le.
Proof.
  intros p q r Hpq Hqr. unfold path_le, path_lt in *. intros Hrp.
  destruct (trichotomy lexico p q) as [Hlt | [-> | Hgt]]; [| done | done].
  apply Hqr. by transitivity p.
Qed.

Global Instance path_le_antisymm : AntiSymm (=) path_le.
Proof.
  intros p q Hpq Hqp. unfold path_le, path_lt in *.
  by destruct (trichotomy lexico p q) as [Hlt | [-> | Hgt]].
Qed.

Lemma sorted_Sorted files : Sorted path_le (sorted files).
Proof. apply (Sorted_merge_sort path_le). Qed.

Lemma sorted_Permutation files : sorted files ≡ₚ files.
Proof. apply (merge_sort_Permutation path_le). Qed.

(** Any way of sorting gives the list [sorted] gives: the result of
    [list.sort()] does not depend on the algorithm. *)
Lemma sorted_unique files l :
  Sorted path_le l → l ≡ₚ files → l = sorted files.
Proof.
  intros Hs Hp. apply (Sorted_unique path_le); [done | apply sorted_Sorted |].
  by rewrite Hp, sorted_Permutation.
Qed.

Lemma sorted_idemp files : sorted (sorted files) = sorted files.
Proof.
  symmetry. apply sorted_unique; [apply sorted_Sorted | done].
Qed.

Lemma sorted_nil : sorted [] = [].
Proof. reflexivity. Qed.


(** ** Running computations *)

Lemma bind_ok {A B} (m : IO A) (k : A → IO B) w a w' :
  m w = (Ok a, w') → bind m k w = k a w'.
Proof. unfold bind. by intros ->. Qed.

Lemma bind_raise {A B} (m : IO A) (k : A → IO B) w e w' :
  m w = (Raise e, w') → bind m k w = (Raise e, w').
Proof. unfold bind. by intros ->. Qed.

Lemma for_fold_cons {A S} (body : S → A → IO S) x l s :
  for_fold body (x :: l) s = bind (body s x) (for_fold body l).
Proof. reflexivity. Qed.


(** *** What a computation leaves unchanged *)

(** [frame R m]: whatever its outcome, [m] takes a world to one related to
    it by [R]. *)
Definition frame {A} (R : relation World) (m : IO A) : Prop :=
  ∀ w, R w (m w).2.

Section Frame.
Context (R : relation World) `{!PreOrder R}.

Lemma frame_ret {A} (a : A) : frame R (ret a).
Proof. intros w. simpl. reflexivity. Qed.

Lemma frame_raise {A} e : frame R (@raise A e).
Proof. intros w. simpl. reflexivity. Qed.

Lemma frame_get {A} (f : World → A) : frame R (get f).
Proof. intros w. simpl. reflexivity. Qed.

Lemma frame_bind {A B} (m : IO A) (k : A → IO B) :
  frame R m → (∀ a, frame R (k a)) → frame R (bind m k).
Proof.
  intros Hm Hk w. unfold bind. specialize (Hm w).
  destruct (m w) as [[a|e] w']; simpl in *; [| done].
  etrans; [exact Hm | apply Hk].
Qed.

Lemma frame_try_except {A} (m : IO A) e (h : IO A) :
  frame R m → frame R h → frame R (try_except m e h).
Proof.
  intros Hm Hh w. unfold try_except. specialize (Hm w).
  destruct (m w) as [[a|e'] w']; simpl in *; [done |].
  destruct (decide (e' = e)); [| done].
  etrans; [exact Hm | apply Hh].
Qed.


Lemma frame_for_fold {A S} (body : S → A → IO S) l s :
  (∀ s x, frame R (body s x)) → frame R (for_fold body l s).
Proof.
  intros Hb. revert s. induction l as [|x l IH]; intros s; simpl.
  - apply frame_ret.
  - apply frame_bind; [apply Hb | apply IH].
Qed.

Lemma frame_for_each {A} (body : A → IO unit) l :
  (∀ x, frame R (body x)) → frame R (for_each body l).
Proof. intros Hb. apply frame_for_fold. intros _ x. apply Hb. Qed.

End Frame.

(** *** Which exceptions a computation can raise *)

Definition no_raise {A} (e : exn) (m : IO A) : Prop :=
  ∀ w, (m w).1 ≠ Raise e.

Lemma no_raise_ret {A} e (a : A) : no_raise e (ret a).
Proof. by intros w. Qed.

Lemma no_raise_get {A} e (f : World → A) : no_raise e (get f).
Proof. by intros w. Qed.

Lemma no_raise_modify e f : no_raise e (modify f).
Proof. by intros w. Qed.

Lemma no_raise_other {A} e e' : e' ≠ e → no_raise e (@raise A e').
Proof. intros Hne w. simpl. congruence. Qed.

Lemma no_raise_bind {A B} e (m : IO A) (k : A → IO B) :
  no_raise e m → (∀ a, no_raise e (k a)) → no_raise e (bind m k).
Proof.
  intros Hm Hk w. unfold bind. specialize (Hm w).
  destruct (m w) as [[a|e'] w']; simpl in *; [apply Hk |].
  intros [= ->]. by apply Hm.
Qed.

Lemma no_raise_try_except {A} e (m : IO A) (h : IO A) :
  no_raise e h → no_raise e (try_except m e h).
Proof.
  intros Hh w. unfold try_except.
  destruct (m w) as [[a|e'] w'] eqn:Hm; simpl; [done |].
  destruct (decide (e' = e)) as [->|Hne]; [apply Hh | simpl; congruence].
Qed.

Lemma no_raise_try_finally {A} e (m : IO A) (c : IO unit) :
  no_raise e m → no_raise e c → no_raise e (try_finally m c).
Proof.
  intros Hm Hc w. unfold try_finally. specialize (Hm w).
  destruct (m w) as [r w']. specialize (Hc w').
  destruct (c w') as [[[]|e'] w'']; simpl in *; [exact Hm |].
  intros [= ->]. by apply Hc.
Qed.

Lemma no_raise_for_fold {A S} e (body : S → A → IO S) l s :
  (∀ s x, no_raise e (body s x)) → no_raise e (for_fold body l s).
Proof.
  intros Hb. revert s. induction l as [|x l IH]; intros s; simpl.
  - apply no_raise_ret.
  - apply no_raise_bind; [apply Hb | apply IH].
Qed.

Lemma no_raise_for_each {A} e (body : A → IO unit) l :
  (∀ x, no_raise e (body x)) → no_raise e (for_each body l).
Proof. intros Hb. apply no_raise_for_fold. intros _ x. apply Hb. Qed.

(** ** The archive packer *)




Ltac world_eq :=
  unfold set_zips, set_lists, set_disk, set_handles, set_dirs, set_open_files, set_created;
  simpl; f_equal.










(** A world holding one list object, at location 0. *)
Definition one_list_world (fs : list Path) : World :=
  mkWorld {[0%nat := fs]} ∅ [] ∅ [] [] [].


(** ** What the packer and the aggregator do to the list objects *)

Definition same_lists : relation World := λ w w', lists w' = lists w.

Global Instance same_lists_preorder : PreOrder same_lists.
Proof. split; [by intros w | intros w1 w2 w3 H1 H2; unfold same_lists in *; congruence]. Qed.

Lemma frame_floordiv R `{!PreOrder R} a b : frame R (floordiv a b).
Proof. intros w. unfold floordiv. case_decide; simpl; reflexivity. Qed.

Lemma frame_py_range R `{!PreOrder R} a b c : frame R (py_range a b c).
Proof. intros w. unfold py_range. repeat case_decide; simpl; reflexivity. Qed.

Lemma frame_relative_to R `{!PreOrder R} p base : frame R (relative_to p base).
Proof. intros w. unfold relative_to. destruct (strip_prefix base p); simpl; reflexivity. Qed.

Lemma frame_arcname R `{!PreOrder R} f src : frame R (arcname f src).
Proof.
  unfold arcname. destruct src; [| apply frame_ret, _].
  apply frame_bind; [done | apply frame_relative_to, _ | intros; apply frame_ret, _].
Qed.

Lemma frame_stat_size R `{!PreOrder R} env p : frame R (stat_size env p).
Proof. intros w. unfold stat_size. destruct (st_size env p); simpl; reflexivity. Qed.

Lemma frame_read_text R `{!PreOrder R} env p enc : frame R (read_text env p enc).
Proof.
  intros w. unfold read_text. destruct (read_bytes env p); [| simpl; reflexivity].
  destruct enc; [| simpl; reflexivity].
  destruct (decode_utf8 _); simpl; reflexivity.
Qed.

Lemma frame_read_content R `{!PreOrder R} env p : frame R (read_content env p).
Proof. apply frame_try_except; [done | apply frame_read_text, _ ..]. Qed.

(** A computation built from a step of the world relates the two worlds. *)
Lemma frame_modify R f : (∀ w, R w (f w)) → frame R (modify f).
Proof. intros H w. apply H. Qed.

Lemma same_lists_zip_open p : frame same_lists (zip_open p).
Proof. by intros w. Qed.

Lemma same_lists_zip_write z f a : frame same_lists (zip_write z f a).
Proof. by intros w. Qed.

Lemma same_lists_open_file p m : frame same_lists (open_file p m).
Proof. intros w. unfold open_file. destruct m; [done |]. by destruct (disk w !! p). Qed.

Lemma same_lists_write h t : frame same_lists (write h t).
Proof.
  intros w. unfold write. destruct (handles w !! h) as [hd|]; [| done].
  by destruct (h_closed hd).
Qed.

Lemma same_lists_close h : frame same_lists (close h).
Proof.
  intros w. unfold close. destruct (handles w !! h) as [hd|]; [| done].
  by destruct (h_closed hd).
Qed.

Lemma same_lists_archive_step fs out c prefix src i :
  frame same_lists (archive_step fs out c prefix src i).
Proof.
  unfold archive_step.
  apply frame_bind; [apply _ | apply frame_floordiv, _ | intros q].
  apply frame_bind; [apply _ | apply same_lists_zip_open | intros z].
  apply frame_for_each; [apply _ | intros f].
  apply frame_bind; [apply _ | apply frame_arcname, _ | intros a].
  apply same_lists_zip_write.
Qed.

Lemma same_lists_context_file_step env out src M ext st f :
  frame same_lists (context_file_step env out src M ext st f).
Proof.
  unfold context_file_step. destruct (st_size env f) as [sz|]; [| apply frame_ret, _].
  apply frame_bind; [apply _ | | intros st1].
  { unfold rotate_bundle. destruct (outfile st) as [h|]; [| apply frame_ret, _].
    destruct (_ && _); [| apply frame_ret, _].
    apply frame_bind; [apply _ | apply same_lists_close | intros; apply frame_ret, _]. }
  apply frame_bind; [apply _ | | intros st2].
  { unfold ensure_open. destruct (outfile st1) as [h|]; [apply frame_ret, _ |].
    apply frame_bind; [apply _ | apply same_lists_open_file | intros; apply frame_ret, _]. }
  unfold append_file. destruct (outfile st2) as [h|]; [| apply frame_raise, _].
  apply frame_bind; [apply _ | apply frame_relative_to, _ | intros rel].
  apply frame_bind; [apply _ | apply same_lists_write | intros _].
  apply frame_bind; [apply _ | apply frame_read_content, _ | intros content].
  apply frame_bind; [apply _ | apply same_lists_write | intros _].
  apply frame_ret, _.
Qed.

(** The list objects once every key of [grouped] has been processed: the
    list of each non-binary key has been sorted where it stands. *)
Definition sort_keys (grouped : list (pystr * nat)) (m : gmap nat (list Path))
    : gmap nat (list Path) :=
  foldl (λ m item, if is_binary item.1 then m else alter sorted item.2 m) m grouped.

Lemma context_key_step_lists env out src M cf item w :
  lists (context_key_step env out src M cf item w).2
  = if is_binary item.1 then lists w else alter sorted item.2 (lists w).
Proof.
  destruct item as [ext l]. unfold context_key_step. simpl.
  destruct (is_binary ext); [done |].
  unfold bind at 1, list_sort at 1, modify at 1.
  match goal with |- lists (?m ?w1).2 = _ => assert (Hf : frame same_lists m) end.
  { apply frame_bind; [apply _ | apply frame_get, _ | intros fs].
    apply frame_bind; [apply _ | | intros st].
    { apply frame_for_fold; [apply _ |]. intros. apply same_lists_context_file_step. }
    apply frame_bind; [apply _ | | intros; apply frame_ret, _].
    destruct (outfile st); [apply same_lists_close | apply frame_ret, _]. }
  by rewrite Hf.
Qed.

Lemma create_context_files_lists env grouped out src M w cf w' :
  create_context_files env grouped out src M w = (Ok cf, w') →
  lists w' = sort_keys grouped (lists w).
Proof.
  unfold create_context_files. generalize (@nil Path) as cf0.
  revert w. induction grouped as [|item grouped IH]; intros w cf0; simpl.
  - by intros [= _ <-].
  - unfold bind. pose proof (context_key_step_lists env out src
      (mb_to_bytes M) cf0 item w) as Hstep.
    destruct (context_key_step _ _ _ _ _ _ _) as [[cf1|e] w1]; [| done].
    intros Hrun. apply IH in Hrun. simpl in Hstep. by rewrite Hrun, Hstep.
Qed.

Lemma sort_keys_lookup_weak grouped m l fs :
  m !! l = Some fs →
  sort_keys grouped m !! l = Some fs ∨ sort_keys grouped m !! l = Some (sorted fs).
Proof.
  revert m fs. induction grouped as [|[ext l'] grouped IH]; intros m fs Hm; simpl.
  - by left.
  - destruct (is_binary ext); simpl; [by apply IH |].
    destruct (decide (l' = l)) as [->|Hne].
    + right. destruct (IH (alter sorted l m) (sorted fs)) as [H|H].
      * by rewrite lookup_alter_eq, Hm.
      * done.
      * by rewrite H, sorted_idemp.
    + apply IH. by rewrite lookup_alter_ne.
Qed.

Lemma sort_keys_lookup grouped m ext l fs :
  (ext, l) ∈ grouped → is_binary ext = false → m !! l = Some fs →
  sort_keys grouped m !! l = Some (sorted fs).
Proof.
  revert m fs. induction grouped as [|[ext' l'] grouped IH]; intros m fs Hin Hnb Hm.
  - by apply elem_of_nil in Hin.
  - simpl. apply elem_of_cons in Hin as [[= <- <-]|Hin].
    + rewrite Hnb.
      destruct (sort_keys_lookup_weak grouped (alter sorted l m) l (sorted fs)) as [H|H].
      * by rewrite lookup_alter_eq, Hm.
      * done.
      * by rewrite H, sorted_idemp.
    + destruct (is_binary ext'); [by apply IH |].
      destruct (decide (l' = l)) as [->|Hne].
      * rewrite (IH (alter sorted l m) (sorted fs)); auto.
        -- by rewrite sorted_idemp.
        -- by rewrite lookup_alter_eq, Hm.
      * apply IH; auto. by rewrite lookup_alter_ne.
Qed.

Lemma sort_keys_untouched grouped m l :
  (∀ ext, (ext, l) ∈ grouped → is_binary ext = true) →
  sort_keys grouped m !! l = m !! l.
Proof.
  revert m. induction grouped as [|[ext' l'] grouped IH]; intros m Hb; [done |].
  simpl. destruct (is_binary ext') eqn:Hbin.
  - apply IH. intros ext Hin. apply Hb. by right.
  - rewrite IH.
    + apply lookup_alter_ne. intros ->.
      specialize (Hb ext' ltac:(left)). congruence.
    + intros ext Hin. apply Hb. by right.
Qed.

Lemma create_archives_lists files out c prefix src w fs :
  lists w !! files = Some fs → c ≠ 0 →
  lists (create_archives files out c prefix src w).2 !! files = Some (sorted fs).
Proof.
  intros Hl Hc. unfold create_archives, list_get, get. unfold bind at 1. simpl.
  rewrite Hl. simpl. destruct fs as [|f0 fs0]; [done |].
  unfold floordiv. case_decide; [done |].
  unfold bind at 1, ret at 1. unfold bind at 1, list_sort at 1, modify at 1.
  match goal with |- lists (?m ?w1).2 !! _ = _ => assert (Hf : frame same_lists m) end.
  { apply frame_bind; [apply _ | apply frame_get, _ | intros fs].
    apply frame_bind; [apply _ | apply frame_py_range, _ | intros starts].
    apply frame_for_each; [apply _ |]. intros. apply same_lists_archive_step. }
  rewrite Hf. simpl. by rewrite lookup_alter_eq, Hl.
Qed.

(** C9, as the code has it. The packer sorts its list object where it
    stands whenever the chunk size is not zero (with a zero chunk size it
    raises before it sorts). The aggregator, when it returns, has sorted
    where it stands the list of every key that is not a binary extension;
    the list of a key that is one, and is not shared with another key, is
    exactly as it was. *)
Theorem sort_in_place :
  (∀ files out c prefix src w fs,
     lists w !! files = Some fs → c ≠ 0 →
     lists (create_archives files out c prefix src w).2 !! files = Some (sorted fs)
     ∧ Sorted path_le (sorted fs) ∧ sorted fs ≡ₚ fs)
  ∧ (∀ env grouped out src M w cf w',
       create_context_files env grouped out src M w = (Ok cf, w') →
       (∀ ext l fs, (ext, l) ∈ grouped → is_binary ext = false →
                    lists w !! l = Some fs →
                    lists w' !! l = Some (sorted fs)
                    ∧ Sorted path_le (sorted fs) ∧ sorted fs ≡ₚ fs)
       ∧ (∀ l, (∀ ext, (ext, l) ∈ grouped → is_binary ext = true) →
               lists w' !! l = lists w !! l)).
Proof.
  split.
  - intros files out c prefix src w fs Hl Hc. split; [| split].
    + by apply create_archives_lists.
    + apply sorted_Sorted.
    + apply sorted_Permutation.
  - intros env grouped out src M w cf w' Hrun.
    apply create_context_files_lists in Hrun. rewrite Hrun. split.
    + intros ext l fs Hin Hnb Hl. split; [| split].
      * by eapply sort_keys_lookup.
      * apply sorted_Sorted.
      * apply sorted_Permutation.
    + intros l Hb. by apply sort_keys_untouched.
Qed.

Definition empty_env : Env :=
  mkEnv (λ _, false) (λ _, []) (λ _, false) (λ _, []) (λ _, []) (λ _, None) (λ _, None).

Lemma sort_in_place_witness :
  (lists (one_list_world [[s<"b">]; [s<"a">]]) !! 0%nat = Some [[s<"b">]; [s<"a">]]
   ∧ lists (create_archives 0 [s<"out">] 10 s<"p"> None
              (one_list_world [[s<"b">]; [s<"a">]])).2 !! 0%nat
     = Some [[s<"a">]; [s<"b">]])
  ∧ (create_context_files empty_env [(s<".txt">, 0%nat)] [s<"out">] [] (FFinite 100)
       (one_list_world [[s<"b.txt">]; [s<"a.txt">]])
     = (Ok [], one_list_world [[s<"a.txt">]; [s<"b.txt">]])
     ∧ lists (one_list_world [[s<"a.txt">]; [s<"b.txt">]]) !! 0%nat
       = Some [[s<"a.txt">]; [s<"b.txt">]]).
Proof.
  split.
  - split; [reflexivity |].
    apply (proj1 sort_in_place 0%nat [s<"out">] 10 s<"p"> None
             (one_list_world [[s<"b">]; [s<"a">]]) [[s<"b">]; [s<"a">]]).
    + reflexivity.
    + lia.
  - assert (Hrun : create_context_files empty_env [(s<".txt">, 0%nat)] [s<"out">] []
                     (FFinite 100) (one_list_world [[s<"b.txt">]; [s<"a.txt">]])
                   = (Ok [], one_list_world [[s<"a.txt">]; [s<"b.txt">]]))
      by (vm_compute; reflexivity).
    split; [exact Hrun |].
    apply (proj1 (proj2 sort_in_place empty_env _ _ _ _ _ _ _ Hrun)
             s<".txt"> 0%nat [[s<"b.txt">]; [s<"a.txt">]]).
    + set_solver.
    + reflexivity.
    + reflexivity.
Defined.

(** C9 as stated fails in two places: the aggregator leaves the list of a
    binary key as it was, and the packer called with a chunk size of zero
    raises before it sorts. *)
Lemma sort_in_place_counterexample :
  (create_context_files empty_env [(s<".png">, 0%nat)] [s<"out">] [] (FFinite 100)
     (one_list_world [[s<"b.png">]; [s<"a.png">]])
   = (Ok [], one_list_world [[s<"b.png">]; [s<"a.png">]])
   ∧ ¬ Sorted path_le [[s<"b.png">]; [s<"a.png">]])
  ∧ (create_archives 0 [s<"out">] 0 s<"p"> None (one_list_world [[s<"b">]; [s<"a">]])
     = (Raise ZeroDivisionError, one_list_world [[s<"b">]; [s<"a">]])
     ∧ ¬ Sorted path_le [[s<"b">]; [s<"a">]]).
Proof.
  split; (split; [vm_compute; reflexivity |]).
  - intros Hs. apply Sorted_inv in Hs as [_ Hhd]. apply HdRel_inv in Hhd.
    apply Hhd. vm_compute. auto.
  - intros Hs. apply Sorted_inv in Hs as [_ Hhd]. apply HdRel_inv in Hhd.
    apply Hhd. vm_compute. auto.
Qed.

(** ** Running the file objects *)

Lemma write_run w h hd t :
  handles w !! h = Some hd → h_closed hd = false →
  write h t w
  = (Ok tt, set_handles <[h := mkHandle (h_path hd) (h_mode hd) (h_written hd ++ t) false]> w).
Proof. intros Hh Hc. unfold write. by rewrite Hh, Hc. Qed.

Lemma close_run w h hd :
  handles w !! h = Some hd → h_closed hd = false →
  close h w
  = (Ok tt, set_handles <[h := mkHandle (h_path hd) (h_mode hd) (h_written hd) true]>
              (set_disk (λ d, <[h_path hd := default [] (d !! h_path hd) ++ h_written hd]> d) w)).
Proof. intros Hh Hc. unfold close. by rewrite Hh, Hc. Qed.

(** The text [read_content] gives for a file's bytes: the UTF-8 decoding,
    or the Latin-1 one when there is none, with newlines translated. *)
Definition content_of (bs : list Byte.byte) : text :=
  let raw := map Byte.to_N bs in
  universal_newlines (default (decode_latin1 raw) (decode_utf8 raw)).

Lemma read_content_run env p bs w :
  read_bytes env p = Some bs → read_content env p w = (Ok (content_of bs), w).
Proof.
  intros Hb. unfold read_content, try_except, read_text, content_of. rewrite Hb.
  by destruct (decode_utf8 _) as [t|].
Qed.

Lemma content_of_utf8 bs t :
  decode_utf8 (map Byte.to_N bs) = Some t → content_of bs = universal_newlines t.
Proof. unfold content_of. by intros ->. Qed.

Lemma content_of_fallback bs :
  decode_utf8 (map Byte.to_N bs) = None →
  content_of bs = universal_newlines (decode_latin1 (map Byte.to_N bs)).
Proof. unfold content_of. by intros ->. Qed.

Global Opaque content_of.

Lemma read_content_missing env p w :
  read_bytes env p = None → read_content env p w = (Raise FileNotFoundError, w).
Proof.
  intros Hb. unfold read_content, try_except, read_text. by rewrite Hb.
Qed.

Lemma insert_last {A} (pre : list A) (x y : A) :
  <[length pre := y]> (pre ++ [x]) = pre ++ [y].
Proof.
  replace (length pre) with (length pre + 0)%nat by lia. by rewrite insert_app_r.
Qed.

Lemma lookup_last {A} (pre : list A) (x : A) : (pre ++ [x]) !! length pre = Some x.
Proof. by apply list_lookup_middle. Qed.

(** Appending one record through the last handle of the table. *)
Lemma append_record_run {A} env src f (x : A) pre p m t rel bs w :
  handles w = pre ++ [mkHandle p m t false] →
  strip_prefix src f = Some rel →
  read_bytes env f = Some bs →
  (let* rel := relative_to f src in
   write (length pre) (context_header rel);;;
   let* content := read_content env f in
   write (length pre) content;;;
   ret x) w
  = (Ok x, set_handles
             (λ _, pre ++ [mkHandle p m (t ++ context_header rel ++ content_of bs) false]) w).
Proof.
  intros Hh Hrel Hb. unfold relative_to. rewrite Hrel.
  unfold bind at 1, ret at 1.
  erewrite bind_ok; [| eapply write_run; [rewrite Hh; apply lookup_last | done]].
  erewrite bind_ok; [| by apply read_content_run].
  erewrite bind_ok.
  2:{ eapply write_run.
      - simpl. rewrite Hh, insert_last. apply lookup_last.
      - done. }
  unfold ret. f_equal. destruct w; simpl in *. subst handles0. world_eq.
  rewrite !insert_last. by rewrite <- app_assoc.
Qed.

(** ** The bundling rule *)

(** The rule in the specification's words: files are taken in order, each
    with its size; when a bundle is open, the running size plus the file's
    size exceeds the bound and the running size is positive, the bundle is
    closed and a new one begins with that file; otherwise the file joins
    the open bundle (the first file opens the first bundle). *)
Record Bundling := mkBundling {
  closed_bundles : list (list (Path * N));
  open_bundle : option (list (Path * N));
  bundle_size : N
}.

Definition spec_bundle_step (M : pyfloat) (b : Bundling) (file : Path * N) : Bundling :=
  match open_bundle b with
  | Some cur =>
      if int_gt_float (bundle_size b + file.2) M && bool_decide (0 < bundle_size b)%N
      then mkBundling (closed_bundles b ++ [cur]) (Some [file]) file.2
      else mkBundling (closed_bundles b) (Some (cur ++ [file])) (bundle_size b + file.2)
  | None => mkBundling (closed_bundles b) (Some [file]) file.2
  end.

Definition all_bundles (b : Bundling) : list (list (Path * N)) :=
  closed_bundles b ++ option_list (open_bundle b).

(** The bundles of a key, in part order, each the files it receives. *)
Definition spec_bundles (M : pyfloat) (files : list (Path * N)) : list (list (Path * N)) :=
  all_bundles (foldl (spec_bundle_step M) (mkBundling [] None 0) files).

(** The files of a list whose [stat] succeeds, each with its size. *)
Definition sized_files (env : Env) (fs : list Path) : list (Path * N) :=
  omap (λ f, (λ n, (f, n)) <$> st_size env f) fs.

(** What the aggregator writes for one file: the header, then the content. *)
Definition context_record (env : Env) (src_path : Path) (f : Path) : text :=
  context_header (default [] (strip_prefix src_path f))
  ++ content_of (default [] (read_bytes env f)).

(** The file of part [i + 1] of a key. *)
Definition bundle_path (output_path : Path) (ext : pystr) (i : nat) : Path :=
  path_div output_path (context_filename ext (Z.of_nat i + 1)).

Definition bundle_text (env : Env) (src_path : Path) (b : list (Path * N)) : text :=
  concat (map (λ file, context_record env src_path file.1) b).

(** The file object of part [i + 1], holding the records of [b]. *)
Definition bundle_handle (env : Env) (output_path src_path : Path) (ext : pystr)
    (closed : bool) (i : nat) (b : list (Path * N)) : Handle :=
  mkHandle (bundle_path output_path ext i) ModeW (bundle_text env src_path b) closed.

(** The loop's variables and the file objects, against the rule's state. *)
Definition key_inv (env : Env) (output_path src_path : Path) (ext : pystr)
    (hs0 : list Handle) (cf0 : list Path) (b : Bundling) (st : KeyState) (w : World)
    : Prop :=
  handles w
  = hs0 ++ imap (bundle_handle env output_path src_path ext true) (closed_bundles b)
        ++ imap (λ i, bundle_handle env output_path src_path ext false
                        (length (closed_bundles b) + i))
             (option_list (open_bundle b))
  ∧ part_num st = Z.of_nat (length (closed_bundles b)) + 1
  ∧ current_size st = bundle_size b
  ∧ outfile st = (λ _, (length hs0 + length (closed_bundles b))%nat) <$> open_bundle b
  ∧ context_files st
    = cf0 ++ map (bundle_path output_path ext) (seq 0 (length (all_bundles b)))
  ∧ (open_bundle b = None → bundle_size b = 0%N).

Section KeyLoop.
Context (env : Env) (output_path src_path : Path) (M : pyfloat) (ext : pystr).
Context (hs0 : list Handle) (cf0 : list Path).

Local Abbreviation inv := (key_inv env output_path src_path ext hs0 cf0).
Local Abbreviation bh := (bundle_handle env output_path src_path ext).

(** Opening the next part and appending a file to it. *)
Lemma open_append_run cl st w f sz rel bs :
  handles w = hs0 ++ imap (bh true) cl →
  part_num st = Z.of_nat (length cl) + 1 →
  outfile st = None →
  context_files st = cf0 ++ map (bundle_path output_path ext) (seq 0 (length cl)) →
  strip_prefix src_path f = Some rel →
  read_bytes env f = Some bs →
  ∃ st' w',
    (let* st2 := ensure_open output_path ext st in
     append_file env src_path st2 f sz) w = (Ok st', w')
    ∧ inv (mkBundling cl (Some [(f, sz)]) (current_size st + sz)) st' w'.
Proof.
  intros Hh Hpn Hof Hcf Hrel Hb.
  unfold ensure_open. rewrite Hof. unfold open_file.
  unfold bind at 1. unfold bind at 1, ret at 1. unfold append_file. simpl.
  eexists _, _. split.
  - eapply (append_record_run env src_path f _ (handles w)); [| done | done].
    destruct w; simpl in *. subst. reflexivity.
  - unfold key_inv, all_bundles. simpl. repeat split.
    + rewrite Hh. rewrite <- app_assoc. f_equal. f_equal.
      unfold bundle_handle, bundle_text, context_record, bundle_path. simpl.
      rewrite Hrel, Hb, Hpn, app_nil_r, Nat.add_0_r. simpl. done.
    + done.
    + f_equal. rewrite Hh, length_app, length_imap. done.
    + rewrite Hcf, length_app. simpl. rewrite <- app_assoc. f_equal.
      rewrite Nat.add_1_r, seq_S, map_app. simpl. unfold bundle_path.
      by rewrite Hpn.
    + done.
Qed.

Lemma rotate_bundle_run cl cur st w sz :
  handles w = hs0 ++ imap (bh true) cl ++ [bh false (length cl) cur] →
  outfile st = Some (length hs0 + length cl)%nat →
  int_gt_float (current_size st + sz) M && bool_decide (0 < current_size st)%N = true →
  ∃ w',
    rotate_bundle M st sz w
    = (Ok (mkKeyState (context_files st) (part_num st + 1) 0 None), w')
    ∧ handles w' = hs0 ++ imap (bh true) (cl ++ [cur]).
Proof.
  intros Hh Hof Hcond. unfold rotate_bundle. rewrite Hof, Hcond.
  assert (Hlook : handles w !! (length hs0 + length cl)%nat = Some (bh false (length cl) cur)).
  { rewrite Hh, app_assoc. rewrite <- (length_imap (bh true) cl), <- length_app.
    apply lookup_last. }
  eexists. split.
  - erewrite bind_ok; [reflexivity |]. by eapply close_run.
  - simpl. rewrite Hh, app_assoc.
    rewrite <- (length_imap (bh true) cl), <- length_app, insert_last.
    rewrite imap_app, <- app_assoc. simpl. by rewrite Nat.add_0_r, length_imap.
Qed.

Lemma context_file_step_refines b st w f sz rel bs :
  inv b st w →
  st_size env f = Some sz →
  strip_prefix src_path f = Some rel →
  read_bytes env f = Some bs →
  ∃ st' w',
    context_file_step env output_path src_path M ext st f w = (Ok st', w')
    ∧ inv (spec_bundle_step M b (f, sz)) st' w'.
Proof.
  intros (Hh & Hpn & Hcs & Hof & Hcf & Hnone) Hsz Hrel Hb.
  unfold context_file_step. rewrite Hsz.
  destruct b as [cl [cur|] bsz]; simpl in *.
  - unfold spec_bundle_step. simpl. rewrite <- Hcs. rewrite Nat.add_0_r in Hh.
    destruct (int_gt_float (current_size st + sz) M
              && bool_decide (0 < current_size st)%N) eqn:Hcond.
    + (* the open bundle is closed and the next part begins *)
      destruct (rotate_bundle_run cl cur st w sz) as (w1 & Hrot & Hh1); [done .. |].
      erewrite bind_ok; [| exact Hrot].
      assert (Hcf1 : context_files st
                     = cf0 ++ map (bundle_path output_path ext)
                                (seq 0 (length (cl ++ [cur])))).
      { rewrite Hcf. unfold all_bundles. by simpl. }
      assert (Hpn1 : part_num st + 1 = Z.of_nat (length (cl ++ [cur])) + 1).
      { rewrite length_app, Hpn. simpl. lia. }
      destruct (open_append_run (cl ++ [cur])
                  (mkKeyState (context_files st) (part_num st + 1) 0 None) w1 f sz rel bs
                  Hh1 Hpn1 eq_refl Hcf1 Hrel Hb)
        as (st' & w' & Hrun & Hinv).
      eexists _, _. split; [exact Hrun |]. simpl in Hinv. by rewrite N.add_0_l in Hinv.
    + (* the file joins the open bundle *)
      unfold rotate_bundle. rewrite Hof, Hcond.
      unfold bind at 1, ret at 1. unfold ensure_open. rewrite Hof.
      unfold bind at 1, ret at 1. unfold append_file. rewrite Hof.
      eexists _, _. split.
      * rewrite <- (length_imap (bh true) cl), <- length_app.
        apply (append_record_run env src_path f); [| done | done].
        by rewrite Hh, app_assoc.
      * unfold key_inv, all_bundles. simpl. repeat split; try done.
        -- rewrite <- app_assoc. do 2 f_equal. rewrite Nat.add_0_r.
           unfold bundle_handle, bundle_text. f_equal.
           rewrite map_app, concat_app. simpl. rewrite app_nil_r. f_equal.
           unfold context_record. simpl. by rewrite Hrel, Hb.
        -- by rewrite length_app, length_imap.
        -- rewrite Hcf. unfold all_bundles. by rewrite !length_app.
  - (* no bundle is open yet *)
    unfold rotate_bundle. rewrite Hof. unfold bind at 1, ret at 1.
    rewrite app_nil_r in Hh. unfold all_bundles in Hcf. simpl in Hcf.
    rewrite app_nil_r in Hcf.
    destruct (open_append_run cl st w f sz rel bs) as (st' & w' & Hrun & Hinv); try done.
    eexists _, _. split; [exact Hrun |].
    unfold spec_bundle_step. simpl.
    by rewrite Hcs, Hnone, N.add_0_l in Hinv.
Qed.

Lemma sized_files_cons f fs :
  sized_files env (f :: fs)
  = match st_size env f with
    | Some sz => (f, sz) :: sized_files env fs
    | None => sized_files env fs
    end.
Proof. unfold sized_files. simpl. by destruct (st_size env f). Qed.

Lemma context_file_loop_refines fs b st w :
  inv b st w →
  (∀ f, f ∈ fs → is_Some (st_size env f) →
        is_Some (strip_prefix src_path f) ∧ is_Some (read_bytes env f)) →
  ∃ st' w',
    for_fold (context_file_step env output_path src_path M ext) fs st w = (Ok st', w')
    ∧ inv (foldl (spec_bundle_step M) b (sized_files env fs)) st' w'.
Proof.
  revert b st w. induction fs as [|f fs IH]; intros b st w Hinv Hok.
  - by eexists _, _.
  - rewrite sized_files_cons. simpl.
    destruct (st_size env f) as [sz|] eqn:Hsz.
    + destruct (Hok f) as [[rel Hrel] [bs Hb]]; [by left | done |].
      destruct (context_file_step_refines b st w f sz rel bs) as (st1 & w1 & Hrun & Hinv1);
        [done .. |].
      erewrite bind_ok; [| exact Hrun].
      apply IH; [done |]. intros f' Hf'. apply Hok. by right.
    + erewrite bind_ok; [| unfold context_file_step; by rewrite Hsz].
      apply IH; [done |]. intros f' Hf'. apply Hok. by right.
Qed.

End KeyLoop.

(** The aggregator on one key refines the bundling rule: the list object is
    sorted where it stands, the files whose [stat] succeeds are bundled by
    the rule, part [i] is written through one file object of its own, named
    [<stem>_context_<i>.txt], which holds the records of the part's files in
    order and is closed at the end. *)
Lemma context_key_step_refines env out src M ext l cf w :
  is_binary ext = false →
  (∀ f, f ∈ default [] (lists w !! l) → is_Some (st_size env f) →
        is_Some (strip_prefix src f) ∧ is_Some (read_bytes env f)) →
  ∃ w',
    context_key_step env out src M cf (ext, l) w
    = (Ok (cf ++ map (bundle_path out ext)
                   (seq 0 (length (spec_bundles M
                      (sized_files env (sorted (default [] (lists w !! l)))))))), w')
    ∧ handles w'
      = handles w ++ imap (bundle_handle env out src ext true)
                       (spec_bundles M (sized_files env (sorted (default [] (lists w !! l)))))
    ∧ lists w' = alter sorted l (lists w).
Proof.
  intros Hnb Hok. set (fs0 := default [] (lists w !! l)) in *.
  pose proof (context_key_step_lists env out src M cf (ext, l) w) as Hlists.
  simpl in Hlists. rewrite Hnb in Hlists.
  unfold context_key_step in *. rewrite Hnb in *.
  unfold bind at 1, list_sort at 1, modify at 1 in Hlists.
  unfold bind at 1, list_sort at 1, modify at 1.
  set (w1 := set_lists (alter sorted l) w) in *.
  unfold bind at 1, list_get at 1, get at 1 in Hlists.
  unfold bind at 1, list_get at 1, get at 1.
  assert (Hget : default [] (lists w1 !! l) = sorted fs0).
  { subst w1 fs0. simpl. rewrite lookup_alter_eq. by destruct (lists w !! l). }
  rewrite Hget in *.
  destruct (context_file_loop_refines env out src M ext (handles w) cf (sorted fs0)
              (mkBundling [] None 0) (mkKeyState cf 1 0 None) w1)
    as (st' & w2 & Hrun & Hh & Hpn & Hcs & Hof & Hcf & _).
  { unfold key_inv, all_bundles. simpl. by rewrite !app_nil_r. }
  { intros f Hf. apply Hok. by rewrite <- (sorted_Permutation fs0). }
  unfold spec_bundles.
  set (b := foldl (spec_bundle_step M) (mkBundling [] None 0)
              (sized_files env (sorted fs0))) in *.
  erewrite bind_ok in Hlists; [| exact Hrun].
  erewrite bind_ok; [| exact Hrun].
  rewrite Hcf.
  destruct (open_bundle b) as [cur|] eqn:Hopen; simpl in *.
  - rewrite Hof in *.
    assert (Hlook : handles w2 !! (length (handles w) + length (closed_bundles b))%nat
                    = Some (bundle_handle env out src ext false
                              (length (closed_bundles b)) cur)).
    { rewrite Hh, app_assoc, Nat.add_0_r.
      rewrite <- (length_imap (bundle_handle env out src ext true) (closed_bundles b)).
      rewrite <- length_app. apply lookup_last. }
    erewrite bind_ok in Hlists; [| by eapply close_run].
    erewrite bind_ok; [| by eapply close_run].
    eexists. split; [reflexivity |]. split; [| exact Hlists].
    simpl. rewrite Hh, app_assoc, Nat.add_0_r.
    rewrite <- (length_imap (bundle_handle env out src ext true) (closed_bundles b)).
    rewrite <- length_app, insert_last. unfold all_bundles. rewrite Hopen. simpl.
    rewrite imap_app, <- app_assoc. simpl. by rewrite Nat.add_0_r, length_imap.
  - rewrite Hof in *. unfold bind at 1, ret at 1 in Hlists. unfold bind at 1, ret at 1.
    eexists. split; [reflexivity |]. split; [| exact Hlists].
    rewrite Hh. unfold all_bundles. rewrite Hopen. simpl. by rewrite !app_nil_r.
Qed.

(** ** Properties of the bundling rule *)

(** The bytes a bundle accounts for: the sizes [stat] gave for its files. *)
Definition bundle_bytes (b : list (Path * N)) : N :=
  foldr (λ file n, (file.2 + n)%N) 0%N b.

(** A bundle is within the bound, or it is one file past the bound after
    empty files only. *)
Definition bundle_ok (M : pyfloat) (b : list (Path * N)) : Prop :=
  b ≠ []
  ∧ (int_gt_float (bundle_bytes b) M = false
     ∨ ∃ pre big, b = pre ++ [big]
                  ∧ (∀ file, file ∈ pre → file.2 = 0%N)
                  ∧ int_gt_float big.2 M = true).

Lemma bundle_bytes_app b1 b2 :
  bundle_bytes (b1 ++ b2) = (bundle_bytes b1 + bundle_bytes b2)%N.
Proof. induction b1 as [|x b1 IH]; simpl; [done | rewrite IH; lia]. Qed.

Lemma bundle_bytes_zero b :
  bundle_bytes b = 0%N → ∀ file, file ∈ b → file.2 = 0%N.
Proof.
  induction b as [|x b IH]; simpl; intros Hz file Hin.
  - by apply elem_of_nil in Hin.
  - apply elem_of_cons in Hin as [->|Hin]; [lia | apply IH; [lia | done]].
Qed.

Lemma bundle_ok_single M file : bundle_ok M [file].
Proof.
  split; [done |]. simpl. rewrite N.add_0_r.
  destruct (int_gt_float file.2 M) eqn:Hgt; [right | by left].
  exists [], file. split; [done |]. split; [| done].
  intros x Hx. by apply elem_of_nil in Hx.
Qed.

(** What the rule keeps true of its state. *)
Definition bundling_ok (M : pyfloat) (b : Bundling) : Prop :=
  Forall (bundle_ok M) (closed_bundles b)
  ∧ match open_bundle b with
    | Some cur => bundle_size b = bundle_bytes cur ∧ bundle_ok M cur
    | None => True
    end.

Lemma spec_bundle_step_ok M b file :
  bundling_ok M b → bundling_ok M (spec_bundle_step M b file).
Proof.
  intros [Hcl Hop]. unfold spec_bundle_step.
  destruct (open_bundle b) as [cur|] eqn:Hopen.
  - destruct Hop as [Hsz Hcur].
    destruct (int_gt_float (bundle_size b + file.2) M) eqn:Hgt; simpl.
    + case_bool_decide as Hpos; simpl.
      * split; simpl.
        -- apply Forall_app. split; [done | by constructor].
        -- split; [lia | apply bundle_ok_single].
      * split; simpl; [done |].
        rewrite bundle_bytes_app. simpl. split; [lia |].
        split; [by destruct cur |].
        right. exists cur, file. split; [done |]. split.
        -- apply bundle_bytes_zero. lia.
        -- replace (bundle_size b) with 0%N in Hgt by lia. by rewrite N.add_0_l in Hgt.
    + split; simpl; [done |].
      rewrite bundle_bytes_app. simpl. split; [lia |].
      split; [by destruct cur |]. left.
      rewrite bundle_bytes_app. simpl. by rewrite N.add_0_r, <- Hsz.
  - split; simpl; [done |]. split; [lia | apply bundle_ok_single].
Qed.

Lemma spec_bundling_ok M files b :
  bundling_ok M b → bundling_ok M (foldl (spec_bundle_step M) b files).
Proof.
  revert b. induction files as [|file files IH]; intros b Hb; simpl; [done |].
  by apply IH, spec_bundle_step_ok.
Qed.

(** Every bundle of the rule is within the bound, or is one file past the
    bound after empty files only. *)
Lemma spec_bundles_ok M files : Forall (bundle_ok M) (spec_bundles M files).
Proof.
  unfold spec_bundles.
  destruct (spec_bundling_ok M files (mkBundling [] None 0)) as [Hcl Hop].
  { split; [constructor | done]. }
  unfold all_bundles. apply Forall_app. split; [done |].
  destruct (open_bundle _); simpl; [| constructor].
  constructor; [apply Hop | constructor].
Qed.

Lemma spec_bundling_concat M files b :
  concat (all_bundles (foldl (spec_bundle_step M) b files))
  = concat (all_bundles b) ++ files.
Proof.
  revert b. induction files as [|file files IH]; intros b; simpl.
  - by rewrite app_nil_r.
  - rewrite IH. unfold spec_bundle_step, all_bundles.
    destruct (open_bundle b) as [cur|]; simpl.
    + destruct (_ && _); simpl; rewrite !concat_app; simpl;
        rewrite ?app_nil_r, <- ?app_assoc; done.
    + rewrite !concat_app. simpl. by rewrite !app_nil_r, <- app_assoc.
Qed.

(** The bundles of the rule, one after the other, are the files in order:
    every file is in exactly one bundle, whole. *)
Lemma spec_bundles_concat M files : concat (spec_bundles M files) = files.
Proof. unfold spec_bundles. by rewrite spec_bundling_concat. Qed.

(** ** The aggregator refines the rule, key by key *)

(** The bundles of the key whose list object is at [l]. *)
Definition key_plan (env : Env) (M : pyfloat) (m : gmap nat (list Path)) (l : nat)
    : list (list (Path * N)) :=
  spec_bundles M (sized_files env (sorted (default [] (m !! l)))).

(** The file objects of one key, none for a binary extension. *)
Definition key_bundles (env : Env) (output_path src_path : Path) (M : pyfloat)
    (m : gmap nat (list Path)) (item : pystr * nat) : list Handle :=
  if is_binary item.1 then []
  else imap (bundle_handle env output_path src_path item.1 true) (key_plan env M m item.2).

(** Every file of a non-binary key that [stat] finds lies under [src_path]
    and can be read. *)
Definition files_ok (env : Env) (src_path : Path) (m : gmap nat (list Path))
    (grouped : list (pystr * nat)) : Prop :=
  ∀ ext l f, (ext, l) ∈ grouped → is_binary ext = false →
             f ∈ default [] (m !! l) → is_Some (st_size env f) →
             is_Some (strip_prefix src_path f) ∧ is_Some (read_bytes env f).

Lemma bundle_paths env out src ext plan :
  h_path <$> imap (bundle_handle env out src ext true) plan
  = map (bundle_path out ext) (seq 0 (length plan)).
Proof. rewrite fmap_imap. simpl. apply (imap_seq_0 plan (bundle_path out ext)). Qed.

Lemma default_alter_sorted (m : gmap nat (list Path)) l l' :
  sorted (default [] (alter sorted l m !! l')) = sorted (default [] (m !! l')).
Proof.
  destruct (decide (l = l')) as [->|Hne].
  - rewrite lookup_alter_eq. destruct (m !! l'); simpl; [apply sorted_idemp | done].
  - by rewrite lookup_alter_ne.
Qed.

Lemma key_bundles_alter env out src M m l item :
  key_bundles env out src M (alter sorted l m) item = key_bundles env out src M m item.
Proof. unfold key_bundles, key_plan. by rewrite default_alter_sorted. Qed.

Lemma files_ok_alter env src m l item grouped :
  files_ok env src m (item :: grouped) → files_ok env src (alter sorted l m) grouped.
Proof.
  intros Hok ext l' f Hin Hnb Hf. apply (Hok ext l'); [by right | done |].
  destruct (decide (l = l')) as [->|Hne].
  - rewrite lookup_alter_eq in Hf. destruct (m !! l') as [fs|]; simpl in *; [| done].
    by rewrite <- (sorted_Permutation fs).
  - by rewrite lookup_alter_ne in Hf.
Qed.

Lemma context_key_loop_refines env out src M grouped cf w :
  files_ok env src (lists w) grouped →
  ∃ w',
    for_fold (context_key_step env out src M) grouped cf w
    = (Ok (cf ++ (h_path <$> concat (map (key_bundles env out src M (lists w)) grouped))), w')
    ∧ handles w' = handles w ++ concat (map (key_bundles env out src M (lists w)) grouped)
    ∧ lists w' = sort_keys grouped (lists w).
Proof.
  revert cf w. induction grouped as [|[ext l] grouped IH]; intros cf w Hok.
  - exists w. simpl. by rewrite !app_nil_r.
  - rewrite for_fold_cons, map_cons, concat_cons.
    change (sort_keys ((ext, l) :: grouped) (lists w))
      with (sort_keys grouped (if is_binary ext then lists w else alter sorted l (lists w))).
    unfold key_bundles at 1 3. cbn [fst snd].
    destruct (is_binary ext) eqn:Hnb.
    + erewrite bind_ok; [| unfold context_key_step; by rewrite Hnb].
      apply IH. intros ext' l' f Hin. apply Hok. by right.
    + destruct (context_key_step_refines env out src M ext l cf w Hnb)
        as (w1 & Hrun & Hh1 & Hl1).
      { intros f. apply (Hok ext l); [by left | done]. }
      erewrite bind_ok; [| exact Hrun].
      destruct (IH (cf ++ map (bundle_path out ext)
                            (seq 0 (length (spec_bundles M
                               (sized_files env (sorted (default [] (lists w !! l))))))))
                  w1) as (w' & Hrun' & Hh' & Hl').
      { rewrite Hl1. by eapply files_ok_alter. }
      exists w'. rewrite Hrun', Hh', Hl', Hh1, Hl1.
      rewrite (map_ext _ _ (key_bundles_alter env out src M (lists w) l)).
      rewrite fmap_app, bundle_paths. unfold key_plan.
      by rewrite <- !app_assoc.
Qed.

(** The whole aggregator: its file objects are those of the rule, key
    after key, and it returns their paths. *)
Lemma create_context_files_refines env grouped out src mb w :
  files_ok env src (lists w) grouped →
  ∃ w',
    create_context_files env grouped out src mb w
    = (Ok (h_path <$> concat (map (key_bundles env out src (mb_to_bytes mb) (lists w))
                                grouped)), w')
    ∧ handles w'
      = handles w ++ concat (map (key_bundles env out src (mb_to_bytes mb) (lists w)) grouped)
    ∧ lists w' = sort_keys grouped (lists w).
Proof.
  intros Hok. unfold create_context_files.
  by apply (context_key_loop_refines env out src (mb_to_bytes mb) grouped [] w).
Qed.

(** C1. The aggregator refines the bundling rule of the specification. For
    every key that is not a binary extension, its files are taken in path
    order, those whose [stat] fails are left out, and the others are
    bundled by [spec_bundle_step]: a new part begins exactly when a bundle
    is open, the running size plus the file's size exceeds the bound and
    the running size is positive; otherwise the file joins the open bundle.
    Part [i] is one file object, [<stem>_context_<i>.txt], holding the
    records of its files whole and in order, and the parts of a key taken
    together are its files: no file is split or repeated. With three files
    of 40 MB and a bound of 100 MB, part 1 receives the first two files and
    part 2 the third. *)
Theorem bundling_follows_rule :
  (∀ env grouped out src mb w,
     files_ok env src (lists w) grouped →
     let bundles := concat (map (key_bundles env out src (mb_to_bytes mb) (lists w)) grouped) in
     ∃ w',
       create_context_files env grouped out src mb w = (Ok (h_path <$> bundles), w')
       ∧ handles w' = handles w ++ bundles)
  ∧ (∀ env M m l,
       concat (key_plan env M m l) = sized_files env (sorted (default [] (m !! l))))
  ∧ (∀ env out src ext l w fs0 f1 f2 f3,
       is_binary ext = false →
       lists w !! l = Some fs0 →
       sorted fs0 = [f1; f2; f3] →
       st_size env f1 = Some 41943040%N →
       st_size env f2 = Some 41943040%N →
       st_size env f3 = Some 41943040%N →
       (∀ f, f ∈ fs0 → is_Some (strip_prefix src f) ∧ is_Some (read_bytes env f)) →
       ∃ w',
         create_context_files env [(ext, l)] out src (FFinite 100) w
         = (Ok [bundle_path out ext 0; bundle_path out ext 1], w')
         ∧ handles w'
           = handles w
             ++ [ bundle_handle env out src ext true 0
                    [(f1, 41943040%N); (f2, 41943040%N)];
                  bundle_handle env out src ext true 1 [(f3, 41943040%N)] ]).
Proof.
  split; [| split].
  - intros env grouped out src mb w Hok bundles.
    destruct (create_context_files_refines env grouped out src mb w Hok)
      as (w' & Hrun & Hh & _).
    by exists w'.
  - intros env M m l. apply spec_bundles_concat.
  - intros env out src ext l w fs0 f1 f2 f3 Hnb Hl Hsorted Hs1 Hs2 Hs3 Hok.
    destruct (create_context_files_refines env [(ext, l)] out src (FFinite 100) w)
      as (w' & Hrun & Hh & _).
    { intros ext' l' f Hin _ Hf _. apply list_elem_of_singleton in Hin as [= -> ->].
      rewrite Hl in Hf. by apply Hok. }
    assert (Hplan : key_plan env (mb_to_bytes (FFinite 100)) (lists w) l
                    = [[(f1, 41943040%N); (f2, 41943040%N)]; [(f3, 41943040%N)]]).
    { unfold key_plan. rewrite Hl. simpl default. rewrite Hsorted.
      rewrite !sized_files_cons, Hs1, Hs2, Hs3.
      vm_compute. reflexivity. }
    exists w'. rewrite Hrun, Hh. simpl. unfold key_bundles. simpl.
    rewrite Hnb, Hplan. simpl. done.
Qed.

(** A scratch tree with three text files, each reported as 40 MB. *)
Definition scratch : Path := [s<"tmp">; s<"x">].
Definition three_files : list Path :=
  [scratch ++ [s<"c.txt">]; scratch ++ [s<"a.txt">]; scratch ++ [s<"b.txt">]].
Definition three_files_env : Env :=
  mkEnv (λ _, true) (λ _, []) (λ _, true) (λ _, scratch) (λ _, [])
        (λ _, Some 41943040%N) (λ _, Some [Byte.x41]).

Lemma bundling_follows_rule_witness :
  ∃ w',
    create_context_files three_files_env [(s<".txt">, 0%nat)] [s<"out">] scratch
      (FFinite 100) (one_list_world three_files)
    = (Ok [bundle_path [s<"out">] s<".txt"> 0; bundle_path [s<"out">] s<".txt"> 1], w')
    ∧ handles w'
      = handles (one_list_world three_files)
        ++ [ bundle_handle three_files_env [s<"out">] scratch s<".txt"> true 0
               [(scratch ++ [s<"a.txt">], 41943040%N); (scratch ++ [s<"b.txt">], 41943040%N)];
             bundle_handle three_files_env [s<"out">] scratch s<".txt"> true 1
               [(scratch ++ [s<"c.txt">], 41943040%N)] ].
Proof.
  apply (proj2 (proj2 bundling_follows_rule) three_files_env [s<"out">] scratch s<".txt">
           0%nat (one_list_world three_files) three_files).
  - reflexivity.
  - reflexivity.
  - vm_compute. reflexivity.
  - reflexivity.
  - reflexivity.
  - reflexivity.
  - intros f Hf. unfold three_files in Hf.
    repeat (apply elem_of_cons in Hf as [->|Hf]); [| | | by apply elem_of_nil in Hf];
      split; eexists; vm_compute; reflexivity.
Defined.

(** C2, as the code has it. The bound applies to the bytes a bundle
    accounts for, the sizes [stat] gave for its files; the headers and the
    size on disk are not counted. For every key that is not a binary
    extension each bundle is non-empty and accounts for no more than the
    bound, unless it ends with one file that alone exceeds the bound and
    every file before it is empty. *)
Theorem bundle_bytes_bounded env grouped out src mb w :
  files_ok env src (lists w) grouped →
  let bundles := concat (map (key_bundles env out src (mb_to_bytes mb) (lists w)) grouped) in
  ∃ w',
    create_context_files env grouped out src mb w = (Ok (h_path <$> bundles), w')
    ∧ handles w' = handles w ++ bundles
    ∧ ∀ ext l b,
        (ext, l) ∈ grouped → is_binary ext = false →
        b ∈ key_plan env (mb_to_bytes mb) (lists w) l →
        b ≠ []
        ∧ (int_gt_float (bundle_bytes b) (mb_to_bytes mb) = false
           ∨ ∃ pre big, b = pre ++ [big]
                        ∧ (∀ file, file ∈ pre → file.2 = 0%N)
                        ∧ int_gt_float big.2 (mb_to_bytes mb) = true).
Proof.
  intros Hok bundles.
  destruct (create_context_files_refines env grouped out src mb w Hok)
    as (w' & Hrun & Hh & _).
  exists w'. split; [done |]. split; [done |].
  intros ext l b _ _ Hb. unfold key_plan in Hb.
  by apply (proj1 (Forall_forall _ _) (spec_bundles_ok (mb_to_bytes mb) _)) in Hb.
Qed.

(** Two text files, an empty one and one of 200 bytes, under a bound of
    128 bytes ([--max-size 0.0001220703125]). *)
Definition small_bound : pyfloat := FFinite (1 # 8192).
Definition two_files : list Path := [scratch ++ [s<"a.txt">]; scratch ++ [s<"b.txt">]].
Definition two_files_env : Env :=
  mkEnv (λ _, true) (λ _, []) (λ _, true) (λ _, scratch) (λ _, [])
        (λ p, if decide (p = scratch ++ [s<"a.txt">]) then Some 0%N else Some 200%N)
        (λ p, if decide (p = scratch ++ [s<"a.txt">]) then Some []
              else Some (replicate 200 Byte.x41)).

Lemma two_files_ok :
  files_ok two_files_env scratch (lists (one_list_world two_files)) [(s<".txt">, 0%nat)].
Proof.
  intros ext l f Hin _ Hf _. apply list_elem_of_singleton in Hin as [= -> ->].
  change (f ∈ two_files) in Hf. unfold two_files in Hf.
  repeat (apply elem_of_cons in Hf as [->|Hf]); [| | by apply elem_of_nil in Hf];
    split; eexists; vm_compute; reflexivity.
Qed.

Lemma bundle_bytes_bounded_witness :
  files_ok two_files_env scratch (lists (one_list_world two_files)) [(s<".txt">, 0%nat)]
  ∧ ∃ w',
      create_context_files two_files_env [(s<".txt">, 0%nat)] [s<"out">] scratch small_bound
        (one_list_world two_files)
      = (Ok [bundle_path [s<"out">] s<".txt"> 0], w').
Proof.
  split; [exact two_files_ok |].
  destruct (bundle_bytes_bounded two_files_env [(s<".txt">, 0%nat)] [s<"out">] scratch
              small_bound (one_list_world two_files) two_files_ok)
    as (w' & Hrun & _).
  exists w'. rewrite Hrun. f_equal.
Defined.

(** A single text file of 100 bytes under the same bound. *)
Definition one_file_env : Env :=
  mkEnv (λ _, true) (λ _, []) (λ _, true) (λ _, scratch) (λ _, [])
        (λ _, Some 100%N) (λ _, Some (replicate 100 Byte.x41)).

(** C2 as stated fails. A bundle of one file of 100 bytes, within the
    bound of 128 bytes, is 167 bytes on disk, the header included. And a
    bundle can hold two files and exceed the bound: an empty file followed
    by one of 200 bytes. *)
Lemma bundle_size_counterexample :
  (∃ w' t,
     create_context_files one_file_env [(s<".txt">, 0%nat)] [s<"out">] scratch small_bound
       (one_list_world [scratch ++ [s<"a.txt">]])
     = (Ok [[s<"out">; s<"txt_context_1.txt">]], w')
     ∧ disk w' !! [s<"out">; s<"txt_context_1.txt">] = Some t
     ∧ utf8_size t = 167%N
     ∧ int_gt_float 167 (mb_to_bytes small_bound) = true
     ∧ st_size one_file_env (scratch ++ [s<"a.txt">]) = Some 100%N
     ∧ int_gt_float 100 (mb_to_bytes small_bound) = false)
  ∧ (∃ w' t,
       create_context_files two_files_env [(s<".txt">, 0%nat)] [s<"out">] scratch small_bound
         (one_list_world two_files)
       = (Ok [[s<"out">; s<"txt_context_1.txt">]], w')
       ∧ handles w'
         = [mkHandle [s<"out">; s<"txt_context_1.txt">] ModeW
              (context_record two_files_env scratch (scratch ++ [s<"a.txt">])
               ++ context_record two_files_env scratch (scratch ++ [s<"b.txt">])) true]
       ∧ disk w' !! [s<"out">; s<"txt_context_1.txt">] = Some t
       ∧ utf8_size t = 334%N
       ∧ int_gt_float 334 (mb_to_bytes small_bound) = true).
Proof.
  split.
  - eexists _, _. split; [vm_compute; reflexivity |].
    split; [vm_compute; reflexivity |]. by vm_compute.
  - eexists _, _. split; [vm_compute; reflexivity |].
    split; [vm_compute; reflexivity |].
    split; [vm_compute; reflexivity |]. by vm_compute.
Qed.

(** ** Extraction failures *)


Lemma mkdir_exist_ok_run p w : (mkdir true p w).1 = Ok tt.
Proof. unfold mkdir. by case_decide. Qed.




Definition ascii_lower (s : pystr) : pystr :=
  map (λ c, if in_range 65 90 c then (c + 32)%N else c) s.


(** ** Encoding errors *)

Lemma no_raise_floordiv e a b : e ≠ ZeroDivisionError → no_raise e (floordiv a b).
Proof. intros He w. unfold floordiv. case_decide; simpl; congruence. Qed.

Lemma no_raise_py_range e a b c : e ≠ ValueError → no_raise e (py_range a b c).
Proof. intros He w. unfold py_range. repeat case_decide; simpl; congruence. Qed.

Lemma no_raise_relative_to e p base : e ≠ ValueError → no_raise e (relative_to p base).
Proof. intros He w. unfold relative_to. destruct (strip_prefix base p); simpl; congruence. Qed.

Lemma no_raise_open_file e p m : no_raise e (open_file p m).
Proof. by intros w. Qed.

Lemma no_raise_write e h t : e ≠ ValueError → no_raise e (write h t).
Proof.
  intros He w. unfold write. destruct (handles w !! h) as [hd|]; [| simpl; congruence].
  destruct (h_closed hd); simpl; congruence.
Qed.

Lemma no_raise_close e h : no_raise e (close h).
Proof.
  intros w. unfold close. destruct (handles w !! h) as [hd|]; [| done].
  by destruct (h_closed hd).
Qed.

Lemma no_raise_mkdir_exist_ok e p : no_raise e (mkdir true p).
Proof. intros w. unfold mkdir. by case_decide. Qed.

Lemma no_raise_list_new e l : no_raise e (list_new l).
Proof. by intros w. Qed.

Lemma no_raise_zip_open e p : no_raise e (zip_open p).
Proof. by intros w. Qed.

(** The fallback decoding cannot fail: [read_content] never raises
    [UnicodeDecodeError]. *)
Lemma no_raise_read_content env p : no_raise UnicodeDecodeError (read_content env p).
Proof.
  apply no_raise_try_except. intros w. unfold read_text.
  by destruct (read_bytes env p).
Qed.

(** One step of a proof that a computation cannot raise [e]. *)
Ltac no_raise_step :=
  first
    [ apply no_raise_ret
    | apply no_raise_get
    | apply no_raise_modify
    | apply no_raise_read_content
    | apply no_raise_open_file
    | apply no_raise_close
    | apply no_raise_mkdir_exist_ok
    | apply no_raise_list_new
    | apply no_raise_zip_open
    | apply no_raise_write; discriminate
    | apply no_raise_floordiv; discriminate
    | apply no_raise_py_range; discriminate
    | apply no_raise_relative_to; discriminate
    | apply no_raise_other; discriminate
    | apply no_raise_bind; [| intros ?]
    | apply no_raise_for_each; intros ?
    | apply no_raise_for_fold; intros ? ?
    | apply no_raise_try_finally
    | match goal with
      | |- no_raise _ (match ?x with _ => _ end) => destruct x
      | |- no_raise _ (if ?x then _ else _) => destruct x
      end ].

Lemma no_raise_decode_context_file_step env out src M ext st f :
  no_raise UnicodeDecodeError (context_file_step env out src M ext st f).
Proof.
  unfold context_file_step, rotate_bundle, ensure_open, append_file.
  repeat no_raise_step.
Qed.

Lemma no_raise_decode_create_context_files env grouped out src mb :
  no_raise UnicodeDecodeError (create_context_files env grouped out src mb).
Proof.
  unfold create_context_files. apply no_raise_for_fold. intros cf [ext l].
  unfold context_key_step, list_sort, list_get. repeat no_raise_step.
  apply no_raise_decode_context_file_step.
Qed.

Lemma no_raise_decode_create_archives files out c prefix src :
  no_raise UnicodeDecodeError (create_archives files out c prefix src).
Proof.
  unfold create_archives, list_get, list_sort, archive_step, arcname, zip_write.
  repeat no_raise_step.
Qed.

Lemma no_raise_decode_combined_key_step env out jar item :
  no_raise UnicodeDecodeError (combined_key_step env out jar item).
Proof.
  destruct item as [ext files]. unfold combined_key_step, combined_file_step.
  repeat no_raise_step.
Qed.

Lemma no_raise_decode_combined_unit lower env out jar :
  no_raise UnicodeDecodeError (combined_unit lower env out jar).
Proof.
  unfold combined_unit. destruct (decompile_jar env jar); [| apply no_raise_ret].
  apply no_raise_for_each. intros item. apply no_raise_decode_combined_key_step.
Qed.

Lemma no_raise_decode_individual_unit lower env args script_dir jar :
  no_raise UnicodeDecodeError (individual_unit lower env args script_dir jar).
Proof.
  unfold individual_unit, alloc_groups.
  apply no_raise_bind; [apply no_raise_mkdir_exist_ok | intros _].
  destruct (decompile_jar env jar); [| apply no_raise_ret].
  destruct (args_mode args).
  - apply no_raise_bind; [apply no_raise_list_new | intros l].
    apply no_raise_decode_create_archives.
  - apply no_raise_bind; [| intros grouped].
    { apply no_raise_for_fold. intros acc item. repeat no_raise_step. }
    apply no_raise_bind; [apply no_raise_decode_create_context_files | intros produced].
    apply no_raise_bind; [apply no_raise_list_new | intros l].
    apply no_raise_decode_create_archives.
Qed.

Lemma no_raise_decode_main lower env args script_dir input_dir :
  no_raise UnicodeDecodeError (main lower env args script_dir input_dir).
Proof.
  unfold main. destruct (negb _); [apply no_raise_ret |].
  destruct (sorted _) as [|jar jars]; [apply no_raise_ret |].
  destruct (args_combine args).
  - unfold main_combined, close_open_files.
    apply no_raise_bind; [apply no_raise_mkdir_exist_ok | intros _].
    apply no_raise_bind; [apply no_raise_modify | intros _].
    apply no_raise_bind; [apply no_raise_modify | intros _].
    apply no_raise_bind; [| intros _].
    { apply no_raise_try_finally.
      - apply no_raise_for_each. intros j. apply no_raise_decode_combined_unit.
      - apply no_raise_bind; [apply no_raise_get | intros opened].
        apply no_raise_for_each. intros kv. apply no_raise_close. }
    apply no_raise_bind; [apply no_raise_get | intros created].
    apply no_raise_bind; [apply no_raise_list_new | intros l].
    apply no_raise_decode_create_archives.
  - unfold main_individual. apply no_raise_for_each. intros j.
    apply no_raise_decode_individual_unit.
Qed.

Lemma elem_of_concat {A} (x : A) (ls : list (list A)) :
  x ∈ concat ls ↔ ∃ l, l ∈ ls ∧ x ∈ l.
Proof.
  rewrite list_elem_of_In, in_concat. split.
  - intros (l & Hl & Hx). exists l. by rewrite !list_elem_of_In.
  - intros (l & Hl & Hx). exists l. by rewrite <- !list_elem_of_In.
Qed.

Lemma elem_of_sized_files env fs f sz :
  f ∈ fs → st_size env f = Some sz → (f, sz) ∈ sized_files env fs.
Proof.
  intros Hf Hsz. unfold sized_files. apply list_elem_of_omap.
  exists f. split; [done |]. by rewrite Hsz.
Qed.

(** Every file of a non-binary key that [stat] finds has its record in one
    of the key's bundles. *)
Lemma record_in_bundle env out src M m ext l f sz :
  is_binary ext = false →
  f ∈ default [] (m !! l) → st_size env f = Some sz →
  ∃ hd before after,
    hd ∈ key_bundles env out src M m (ext, l)
    ∧ h_closed hd = true
    ∧ h_written hd = before ++ context_record env src f ++ after.
Proof.
  intros Hnb Hf Hsz. unfold key_bundles. simpl. rewrite Hnb.
  assert (Hin : (f, sz) ∈ concat (key_plan env M m l)).
  { unfold key_plan. rewrite spec_bundles_concat.
    apply elem_of_sized_files; [| done]. by rewrite sorted_Permutation. }
  apply elem_of_concat in Hin as (b & Hb & Hfb).
  apply list_elem_of_lookup in Hb as [i Hi].
  apply list_elem_of_split in Hfb as (b1 & b2 & ->).
  exists (bundle_handle env out src ext true i (b1 ++ (f, sz) :: b2)),
         (bundle_text env src b1), (bundle_text env src b2).
  split; [| split; [done |]].
  - apply list_elem_of_lookup. exists i. by rewrite list_lookup_imap, Hi.
  - simpl. unfold bundle_text. rewrite map_app, concat_app. by simpl.
Qed.

(** C6. A file whose bytes are not valid UTF-8 is read again as Latin-1,
    which gives every byte its own code point and cannot fail. In
    Individual mode the aggregator returns normally whatever the files'
    encodings, and the record of such a file, its header followed by the
    Latin-1 text, is in a bundle; in Combined mode the record is appended
    through the key's handle. Neither the aggregator nor [main] ever raises
    [UnicodeDecodeError]. *)
Theorem encoding_fallback :
  (∀ env p bs w,
     read_bytes env p = Some bs → decode_utf8 (map Byte.to_N bs) = None →
     read_content env p w
     = (Ok (universal_newlines (decode_latin1 (map Byte.to_N bs))), w)
     ∧ decode_latin1 (map Byte.to_N bs) = map Byte.to_N bs)
  ∧ (∀ env grouped out src mb w ext l f sz rel bs,
       files_ok env src (lists w) grouped →
       (ext, l) ∈ grouped → is_binary ext = false →
       f ∈ default [] (lists w !! l) →
       st_size env f = Some sz → strip_prefix src f = Some rel →
       read_bytes env f = Some bs → decode_utf8 (map Byte.to_N bs) = None →
       ∃ produced w' hd before after,
         create_context_files env grouped out src mb w = (Ok produced, w')
         ∧ hd ∈ handles w' ∧ h_closed hd = true
         ∧ h_written hd
           = before ++ (context_header rel
                        ++ universal_newlines (decode_latin1 (map Byte.to_N bs)))
                    ++ after)
  ∧ (∀ env jar h hd f bs w,
       handles w !! h = Some hd → h_closed hd = false →
       read_bytes env f = Some bs → decode_utf8 (map Byte.to_N bs) = None →
       ∃ w',
         combined_file_step env jar h f w = (Ok tt, w')
         ∧ handles w' !! h
           = Some (mkHandle (h_path hd) (h_mode hd)
                     (h_written hd
                      ++ combined_header (path_name jar) (path_name f)
                      ++ universal_newlines (decode_latin1 (map Byte.to_N bs)))
                     false))
  ∧ (∀ env grouped out src mb w,
       (create_context_files env grouped out src mb w).1 ≠ Raise UnicodeDecodeError)
  ∧ (∀ lower env args script_dir input_dir w,
       (main lower env args script_dir input_dir w).1 ≠ Raise UnicodeDecodeError).
Proof.
  split; [| split; [| split; [| split]]].
  - intros env p bs w Hb Hdec. split; [| done].
    rewrite (read_content_run env p bs w Hb). by rewrite content_of_fallback.
  - intros env grouped out src mb w ext l f sz rel bs Hok Hin Hnb Hf Hsz Hrel Hb Hdec.
    destruct (create_context_files_refines env grouped out src mb w Hok)
      as (w' & Hrun & Hh & _).
    destruct (record_in_bundle env out src (mb_to_bytes mb) (lists w) ext l f sz
                Hnb Hf Hsz) as (hd & before & after & Hhd & Hclosed & Hwritten).
    eexists _, w', hd, before, after. split; [exact Hrun |]. split; [| split; [done |]].
    + rewrite Hh. apply elem_of_app. right. apply elem_of_concat.
      exists (key_bundles env out src (mb_to_bytes mb) (lists w) (ext, l)).
      split; [| done].
      by apply (list_elem_of_fmap_2 (key_bundles env out src (mb_to_bytes mb) (lists w))).
    + rewrite Hwritten. unfold context_record. rewrite Hrel, Hb. simpl.
      by rewrite content_of_fallback.
  - intros env jar h hd f bs w Hh Hopen Hb Hdec. unfold combined_file_step.
    erewrite bind_ok; [| by eapply write_run].
    erewrite bind_ok; [| by apply read_content_run].
    eexists. split.
    + eapply write_run;
        [simpl; apply list_lookup_insert_eq; by eapply lookup_lt_Some | done].
    + simpl. rewrite list_insert_insert_eq, list_lookup_insert_eq
        by (by eapply lookup_lt_Some).
      by rewrite content_of_fallback, <- app_assoc.
  - intros env grouped out src mb w. apply no_raise_decode_create_context_files.
  - intros lower env args script_dir input_dir w. apply no_raise_decode_main.
Qed.

(** A scratch file that is not valid UTF-8: the bytes [41 FF 0D 0A]. *)
Definition latin1_file : Path := scratch ++ [s<"a.txt">].
Definition latin1_bytes : list Byte.byte := [Byte.x41; Byte.xff; Byte.x0d; Byte.x0a].
Definition latin1_env : Env :=
  mkEnv (λ _, true) (λ _, [[s<"in">; s<"a.jar">]]) (λ _, true) (λ _, scratch)
        (λ _, [([s<"a.txt">], true)]) (λ _, Some 4%N) (λ _, Some latin1_bytes).

Lemma encoding_fallback_witness :
  (read_bytes latin1_env latin1_file = Some latin1_bytes
   ∧ decode_utf8 (map Byte.to_N latin1_bytes) = None
   ∧ read_content latin1_env latin1_file (one_list_world [latin1_file])
     = (Ok [65; 255; 10]%N, one_list_world [latin1_file]))
  ∧ ∃ produced w' hd before after,
      create_context_files latin1_env [(s<".txt">, 0%nat)] [s<"out">] scratch (FFinite 100)
        (one_list_world [latin1_file]) = (Ok produced, w')
      ∧ hd ∈ handles w' ∧ h_closed hd = true
      ∧ h_written hd
        = before ++ (context_header [s<"a.txt">] ++ [65; 255; 10]%N) ++ after.
Proof.
  split.
  - split; [reflexivity |]. split; [reflexivity |].
    apply (proj1 (proj1 encoding_fallback latin1_env latin1_file latin1_bytes
                    (one_list_world [latin1_file]) eq_refl eq_refl)).
  - apply (proj1 (proj2 encoding_fallback) latin1_env [(s<".txt">, 0%nat)] [s<"out">]
             scratch (FFinite 100) (one_list_world [latin1_file]) s<".txt"> 0%nat
             latin1_file 4%N [s<"a.txt">] latin1_bytes).
    + intros ext l f Hin _ Hf _. apply list_elem_of_singleton in Hin as [= -> ->].
      apply list_elem_of_singleton in Hf as ->.
      split; eexists; vm_compute; reflexivity.
    + by left.
    + reflexivity.
    + by left.
    + reflexivity.
    + vm_compute. reflexivity.
    + reflexivity.
    + reflexivity.
Defined.

(** ** Files that disappear *)

(** One input archive whose scratch tree lists [a.txt] and [b.txt];
    [a.txt] has disappeared by the time it is looked at. *)
Definition vanished_file : Path := scratch ++ [s<"a.txt">].
Definition vanished_env : Env :=
  mkEnv (λ _, true) (λ _, [[s<"in">; s<"a.jar">]]) (λ _, true) (λ _, scratch)
        (λ _, [([s<"a.txt">], true); ([s<"b.txt">], true)])
        (λ p, if decide (p = vanished_file) then None else Some 1%N)
        (λ p, if decide (p = vanished_file) then None else Some [Byte.x42]).

(** The same tree, [a.txt] disappearing after its [stat] and before it is
    read. *)
Definition vanishing_env : Env :=
  mkEnv (λ _, true) (λ _, [[s<"in">; s<"a.jar">]]) (λ _, true) (λ _, scratch)
        (λ _, [([s<"a.txt">], true); ([s<"b.txt">], true)])
        (λ _, Some 1%N)
        (λ p, if decide (p = vanished_file) then None else Some [Byte.x42]).

Definition empty_world : World := mkWorld ∅ ∅ [] ∅ [] [] [].
Definition individual_args : Args := mkArgs false Context 10 (FFinite 100).
Definition combined_args : Args := mkArgs true Context 10 (FFinite 100).

(** C7 on the code. In Individual mode the file whose [stat] fails is
    skipped and [b.txt] is bundled. In Combined mode nothing catches the
    [FileNotFoundError] of the read: the run stops there, [b.txt] is never
    written and no archive is made. *)
Lemma vanished_file_aborts_combined :
  (∃ w', main ascii_lower vanished_env individual_args [s<"s">] [s<"in">] empty_world
         = (Ok tt, w')
         ∧ handles w'
           = [mkHandle [s<"s">; s<"_decompiled_a">; s<"txt_context_1.txt">] ModeW
                (context_header [s<"b.txt">] ++ [66%N]) true]
         ∧ length (zips w') = 1%nat)
  ∧ (∃ w', main ascii_lower vanished_env combined_args [s<"s">] [s<"in">] empty_world
           = (Raise FileNotFoundError, w')
           ∧ handles w'
             = [mkHandle [s<"s">; s<"_decompiled_combined_in">; s<"txt_context_1.txt">] ModeA
                  (combined_header s<"a.jar"> s<"a.txt">) true]
           ∧ zips w' = []).
Proof.
  split; eexists; (split; [vm_compute; reflexivity |]); split; vm_compute; reflexivity.
Qed.

(** C5 on the code. In Individual mode nothing closes the open bundle when
    the read of a file raises: the handle stays open and what was written
    through it has not reached the file. In Combined mode the [finally]
    clause closes the handle on the same input. *)
Lemma individual_leaves_handle_open :
  (∃ w', main ascii_lower vanishing_env individual_args [s<"s">] [s<"in">] empty_world
         = (Raise FileNotFoundError, w')
         ∧ handles w'
           = [mkHandle [s<"s">; s<"_decompiled_a">; s<"txt_context_1.txt">] ModeW
                (context_header [s<"a.txt">]) false]
         ∧ disk w' !! [s<"s">; s<"_decompiled_a">; s<"txt_context_1.txt">] = Some [])
  ∧ (∃ w', main ascii_lower vanishing_env combined_args [s<"s">] [s<"in">] empty_world
           = (Raise FileNotFoundError, w')
           ∧ handles w'
             = [mkHandle [s<"s">; s<"_decompiled_combined_in">; s<"txt_context_1.txt">] ModeA
                  (combined_header s<"a.jar"> s<"a.txt">) true]
           ∧ disk w' !! [s<"s">; s<"_decompiled_combined_in">; s<"txt_context_1.txt">]
             = Some (combined_header s<"a.jar"> s<"a.txt">)).
Proof.
  split; eexists; (split; [vm_compute; reflexivity |]); split; vm_compute; reflexivity.
Qed.

(** ** Combined mode: one bundle per key *)

(** The text written per key, as an insertion-ordered dictionary: the
    text of a known key grows, a new key is added at the end. *)
Fixpoint dict_append (d : list (pystr * text)) (k : pystr) (t : text)
    : list (pystr * text) :=
  match d with
  | [] => [(k, t)]
  | (k', t') :: rest =>
      if decide (k = k') then (k', t' ++ t) :: rest
      else (k', t') :: dict_append rest k t
  end.

(** The position of a key in such a dictionary. *)
Fixpoint dict_index {V} (d : list (pystr * V)) (k : pystr) : option nat :=
  match d with
  | [] => None
  | (k', _) :: rest => if decide (k = k') then Some 0%nat else S <$> dict_index rest k
  end.

(** What Combined mode writes for one file: the header naming the input
    archive and the file, then the content. *)
Definition combined_record (env : Env) (jar_path f : Path) : text :=
  combined_header (path_name jar_path) (path_name f)
  ++ content_of (default [] (read_bytes env f)).

(** The records of one key of one input archive, in path order. *)
Definition key_records (env : Env) (jar_path : Path) (files : list Path) : text :=
  concat (map (combined_record env jar_path) (sorted files)).

Definition spec_key_step (env : Env) (jar_path : Path) (acc : list (pystr * text))
    (item : pystr * list Path) : list (pystr * text) :=
  if is_binary item.1 then acc
  else dict_append acc item.1 (key_records env jar_path item.2).

Section CombinedSpec.
Variable lower : pystr → pystr.

(** The groups of an input archive, none when the decompiler fails on it. *)
Definition unit_groups (env : Env) (jar_path : Path) : list (pystr * list Path) :=
  if decompile_jar env jar_path then group_files lower (scratch_files env jar_path)
  else [].

Definition spec_unit_step (env : Env) (acc : list (pystr * text)) (jar_path : Path)
    : list (pystr * text) :=
  foldl (spec_key_step env jar_path) acc (unit_groups env jar_path).

(** The keys of a Combined run, each with all the text written for it. *)
Definition spec_combined (env : Env) (jars : list Path) : list (pystr * text) :=
  foldl (spec_unit_step env) [] jars.

(** The records of one key that come from one input archive. *)
Definition unit_records (env : Env) (ext : pystr) (jar_path : Path) : text :=
  match dict_get (unit_groups env jar_path) ext with
  | Some files => key_records env jar_path files
  | None => []
  end.

(** Every file of a non-binary key of an extracted archive can be read. *)
Definition combined_files_ok (env : Env) (jars : list Path) : Prop :=
  ∀ jar ext files f,
    jar ∈ jars → (ext, files) ∈ unit_groups env jar → is_binary ext = false →
    f ∈ files → is_Some (read_bytes env f).

End CombinedSpec.

(** *** The dictionary *)

Lemma dict_get_None {V} (d : list (pystr * V)) k : dict_get d k = None ↔ k ∉ d.*1.
Proof.
  induction d as [|[k' v] d IH]; simpl.
  - split; [intros _; apply not_elem_of_nil | done].
  - case_decide as Hk.
    + subst. split; [done |]. intros Hn. exfalso. apply Hn. by left.
    + rewrite IH. rewrite not_elem_of_cons. naive_solver.
Qed.

Lemma dict_index_None {V} (d : list (pystr * V)) k : dict_index d k = None ↔ k ∉ d.*1.
Proof.
  induction d as [|[k' v] d IH]; simpl.
  - split; [intros _; apply not_elem_of_nil | done].
  - case_decide as Hk.
    + subst. split; [done |]. intros Hn. exfalso. apply Hn. by left.
    + rewrite fmap_None, IH, not_elem_of_cons. naive_solver.
Qed.

Lemma dict_index_Some {V} (d : list (pystr * V)) k i :
  dict_index d k = Some i → ∃ v, d !! i = Some (k, v) ∧ dict_get d k = Some v.
Proof.
  revert i. induction d as [|[k' v] d IH]; intros i; simpl; [done |].
  case_decide as Hk.
  - intros [= <-]. subst. by exists v.
  - intros Hi. apply fmap_Some in Hi as (j & Hj & ->). by apply IH.
Qed.

Lemma dict_get_imap {V} (d : list (pystr * V)) n k :
  dict_get (imap (λ i kv, (kv.1, (n + i)%nat)) d) k = (λ i, (n + i)%nat) <$> dict_index d k.
Proof.
  revert n. induction d as [|[k' v] d IH]; intros n; [done |].
  rewrite imap_cons. simpl. case_decide; [done |].
  rewrite (imap_ext _ (λ i kv, (kv.1, (S n + i)%nat))).
  - rewrite IH. destruct (dict_index d k); simpl; [f_equal; lia | done].
  - intros i x _. simpl. f_equal. lia.
Qed.

Lemma dict_append_keys d k t :
  (dict_append d k t).*1 = if decide (k ∈ d.*1) then d.*1 else d.*1 ++ [k].
Proof.
  induction d as [|[k' t'] d IH]; [done |].
  cbn [dict_append]. destruct (decide (k = k')) as [->|Hk]; rewrite !fmap_cons; cbn [fst].
  - rewrite decide_True; [done | by left].
  - rewrite IH. destruct (decide (k ∈ d.*1)) as [Hin|Hnin].
    + rewrite decide_True; [done | by right].
    + rewrite decide_False; [done |]. rewrite not_elem_of_cons. done.
Qed.

Lemma dict_get_append d k t k' :
  dict_get (dict_append d k t) k'
  = if decide (k = k') then Some (default [] (dict_get d k) ++ t) else dict_get d k'.
Proof.
  induction d as [|[k0 t0] d IH]; simpl.
  - destruct (decide (k' = k)) as [->|Hne].
    + by rewrite decide_True.
    + rewrite decide_False by done. done.
  - destruct (decide (k = k0)) as [->|Hk]; simpl.
    + destruct (decide (k' = k0)) as [->|Hk'].
      * by rewrite decide_True.
      * rewrite decide_False by done. done.
    + rewrite IH. destruct (decide (k' = k0)) as [->|Hk'].
      * by rewrite decide_False.
      * done.
Qed.

Lemma dict_append_new d k t : dict_index d k = None → dict_append d k t = d ++ [(k, t)].
Proof.
  induction d as [|[k' t'] d IH]; simpl; [done |].
  case_decide; [done |]. intros Hi. apply fmap_None in Hi. by rewrite IH.
Qed.

Lemma dict_append_known d k t i t0 :
  dict_index d k = Some i → d !! i = Some (k, t0) →
  dict_append d k t = <[i := (k, t0 ++ t)]> d.
Proof.
  revert i. induction d as [|[k' t'] d IH]; intros i; simpl; [done |].
  case_decide as Hk.
  - intros [= <-] [= -> ->]. done.
  - intros Hi. apply fmap_Some in Hi as (j & Hj & ->). simpl. intros Hl.
    by rewrite (IH j).
Qed.

Lemma elem_of_dict_get {V} (d : list (pystr * V)) k v :
  NoDup d.*1 → (k, v) ∈ d → dict_get d k = Some v.
Proof.
  induction d as [|[k' v'] d IH]; simpl; intros Hnd Hin.
  - by apply elem_of_nil in Hin.
  - apply NoDup_cons in Hnd as [Hk' Hnd].
    apply elem_of_cons in Hin as [[= -> ->]|Hin].
    + by rewrite decide_True.
    + rewrite decide_False; [by apply IH |].
      intros ->. apply Hk'. by apply (list_elem_of_fmap_2 fst d (k', v)).
Qed.

Lemma dict_get_elem_of {V} (d : list (pystr * V)) k v :
  dict_get d k = Some v → (k, v) ∈ d.
Proof.
  induction d as [|[k' v'] d IH]; simpl; [done |].
  case_decide as Hk; [intros [= ->]; subst; by left | intros; right; by apply IH].
Qed.

(** *** The Combined loop refines the dictionary *)

(** The file object of a key in Combined mode. *)
Definition combined_handle (output_path : Path) (closed : bool) (kv : pystr * text) : Handle :=
  mkHandle (path_div output_path (combined_filename kv.1)) ModeA kv.2 closed.

(** What opening a file in append mode does to the files: a missing file is
    created empty, an existing one is left as it is. *)
Definition touch (p : Path) (d : gmap Path text) : gmap Path text :=
  match d !! p with
  | Some _ => d
  | None => <[p := []]> d
  end.

(** What closing a file object does to the files: the text written to it
    goes after what the file holds. *)
Definition append_to (p : Path) (t : text) (d : gmap Path text) : gmap Path text :=
  <[p := default [] (d !! p) ++ t]> d.

Definition touched (output_path : Path) (keys : list pystr) (d : gmap Path text) :
    gmap Path text :=
  foldl (λ d k, touch (path_div output_path (combined_filename k)) d) d keys.

(** The files after the texts of the dictionary are appended, key after key. *)
Definition appended (output_path : Path) (acc : list (pystr * text)) (d : gmap Path text) :
    gmap Path text :=
  foldl (λ d kv, append_to (path_div output_path (combined_filename kv.1)) kv.2 d) d acc.

(** [open_files], the file objects and the files, against the dictionary. *)
Definition comb_inv (output_path : Path) (hs0 : list Handle) (d0 : gmap Path text)
    (acc : list (pystr * text)) (w : World) : Prop :=
  open_files w = imap (λ i kv, (kv.1, (length hs0 + i)%nat)) acc
  ∧ handles w = hs0 ++ map (combined_handle output_path false) acc
  ∧ disk w = touched output_path acc.*1 d0.

Lemma combined_file_loop env jar h files w hd :
  handles w !! h = Some hd → h_closed hd = false →
  (∀ f, f ∈ files → is_Some (read_bytes env f)) →
  for_each (combined_file_step env jar h) files w
  = (Ok tt, set_handles
              <[h := mkHandle (h_path hd) (h_mode hd)
                       (h_written hd ++ concat (map (combined_record env jar) files)) false]> w).
Proof.
  unfold for_each. revert w hd. induction files as [|f files IH]; intros w hd Hh Hopen Hok.
  - simpl. unfold ret. f_equal. destruct w, hd; simpl in *. subst. world_eq.
    rewrite app_nil_r. by rewrite list_insert_id.
  - rewrite for_fold_cons. destruct (Hok f) as [bs Hb]; [by left |].
    assert (Hlt : (h < length (handles w))%nat) by (by eapply lookup_lt_Some).
    erewrite bind_ok.
    2:{ unfold combined_file_step.
        erewrite bind_ok; [| by eapply write_run].
        erewrite bind_ok; [| by apply read_content_run].
        eapply write_run; [simpl; by apply list_lookup_insert_eq | done]. }
    rewrite (IH _ (mkHandle (h_path hd) (h_mode hd)
                     ((h_written hd ++ combined_header (path_name jar) (path_name f))
                      ++ content_of bs) false)).
    + f_equal. destruct w; simpl in *. world_eq.
      rewrite !list_insert_insert_eq. f_equal. f_equal.
      unfold combined_record at 2. rewrite Hb. simpl. by rewrite <- !app_assoc.
    + simpl. rewrite list_insert_insert_eq. apply list_lookup_insert_eq.
      done.
    + done.
    + intros f' Hf'. apply Hok. by right.
Qed.

Lemma dict_get_snoc {V} (d : list (pystr * V)) k v :
  dict_get d k = None → dict_get (d ++ [(k, v)]) k = Some v.
Proof.
  induction d as [|[k' v'] d IH]; simpl.
  - by rewrite decide_True.
  - case_decide; [done | apply IH].
Qed.

Lemma imap_insert_key {V} (d : list (pystr * V)) n i k v v' :
  d !! i = Some (k, v) →
  imap (λ j kv, (kv.1, (n + j)%nat)) (<[i := (k, v')]> d)
  = imap (λ j kv, (kv.1, (n + j)%nat)) d.
Proof.
  intros Hi. apply list_eq. intros j. rewrite !list_lookup_imap.
  destruct (decide (i = j)) as [->|Hne].
  - rewrite list_lookup_insert_eq by (by eapply lookup_lt_Some). by rewrite Hi.
  - by rewrite list_lookup_insert_ne.
Qed.

Lemma combined_key_step_refines env out jar hs0 d0 acc ext files w :
  comb_inv out hs0 d0 acc w →
  (is_binary ext = false → ∀ f, f ∈ files → is_Some (read_bytes env f)) →
  ∃ w',
    combined_key_step env out jar (ext, files) w = (Ok tt, w')
    ∧ comb_inv out hs0 d0 (spec_key_step env jar acc (ext, files)) w'.
Proof.
  intros (Hof & Hh & Hd) Hok. unfold combined_key_step, spec_key_step. simpl.
  destruct (is_binary ext) eqn:Hnb; [by exists w |].
  specialize (Hok eq_refl).
  assert (Hok' : ∀ f, f ∈ sorted files → is_Some (read_bytes env f)).
  { intros f Hf. apply Hok. by rewrite <- (sorted_Permutation files). }
  unfold bind at 1, get at 1. rewrite Hof, dict_get_imap.
  destruct (dict_index acc ext) as [i|] eqn:Hidx; simpl.
  - (* the key has its bundle already *)
    destruct (dict_index_Some acc ext i Hidx) as (t0 & Hi & _).
    unfold bind at 1, ret at 1. unfold bind at 1, get at 1.
    rewrite Hof, dict_get_imap, Hidx. simpl.
    rewrite (combined_file_loop env jar _ _ _ (combined_handle out false (ext, t0)));
      [| | done | done].
    2:{ rewrite Hh, lookup_app_r by lia.
        replace (length hs0 + i - length hs0)%nat with i by lia.
        by rewrite list_lookup_fmap, Hi. }
    eexists. split; [reflexivity |]. split; [| split]; simpl.
    + rewrite Hof. erewrite dict_append_known by done.
      by erewrite imap_insert_key.
    + rewrite Hh, insert_app_r. f_equal.
      erewrite dict_append_known by done. by rewrite list_fmap_insert.
    + rewrite dict_append_keys, decide_True; [done |].
      apply (list_elem_of_fmap_2 fst acc (ext, t0)). by eapply list_elem_of_lookup_2.
  - (* the key's bundle is opened, in append mode *)
    unfold bind at 1. unfold bind at 1, open_file at 1. unfold bind at 1, modify at 1.
    unfold modify at 1. unfold bind at 1, get at 1.
    set (wd := match disk w !! path_div out (combined_filename ext) with
               | Some _ => w
               | None => set_disk <[path_div out (combined_filename ext) := []]> w
               end).
    assert (Hwd : open_files wd = open_files w ∧ handles wd = handles w).
    { subst wd. by destruct (disk w !! _). }
    destruct Hwd as [Hofd Hhd]. simpl. rewrite Hofd, Hof.
    rewrite dict_get_snoc by (by rewrite dict_get_imap, Hidx).
    rewrite (combined_file_loop env jar _ _ _
               (mkHandle (path_div out (combined_filename ext)) ModeA [] false));
      [| simpl; rewrite Hhd; apply lookup_last | done | done].
    eexists. split; [reflexivity |]. split; [| split]; simpl.
    + rewrite Hofd, Hof, dict_append_new by done. rewrite imap_app. simpl.
      rewrite Hh, length_app, length_map. by rewrite Nat.add_0_r.
    + rewrite Hhd, insert_last, Hh, dict_append_new by done.
      by rewrite map_app, <- app_assoc.
    + rewrite dict_append_new by done. unfold touched. rewrite fmap_app, foldl_app.
      fold (touched out acc.*1 d0). rewrite <- Hd. simpl. subst wd. unfold touch.
      by destruct (disk w !! _).
Qed.

Lemma combined_groups_refines env out jar hs0 d0 groups acc w :
  comb_inv out hs0 d0 acc w →
  (∀ ext files f, (ext, files) ∈ groups → is_binary ext = false → f ∈ files →
                  is_Some (read_bytes env f)) →
  ∃ w',
    for_each (combined_key_step env out jar) groups w = (Ok tt, w')
    ∧ comb_inv out hs0 d0 (foldl (spec_key_step env jar) acc groups) w'.
Proof.
  unfold for_each. revert acc w.
  induction groups as [|[ext files] groups IH]; intros acc w Hinv Hok.
  - by exists w.
  - rewrite for_fold_cons.
    destruct (combined_key_step_refines env out jar hs0 d0 acc ext files w Hinv)
      as (w1 & Hrun & Hinv1).
    { intros Hnb f Hf. apply (Hok ext files); [by left | done | done]. }
    erewrite bind_ok; [| exact Hrun]. simpl.
    apply IH; [done |]. intros ext' files' f Hin. apply Hok. by right.
Qed.

Lemma combined_unit_refines lower env out hs0 d0 acc jar w :
  comb_inv out hs0 d0 acc w →
  (∀ ext files f, (ext, files) ∈ unit_groups lower env jar → is_binary ext = false →
                  f ∈ files → is_Some (read_bytes env f)) →
  ∃ w',
    combined_unit lower env out jar w = (Ok tt, w')
    ∧ comb_inv out hs0 d0 (spec_unit_step lower env acc jar) w'.
Proof.
  intros Hinv Hok. unfold combined_unit, spec_unit_step, unit_groups in *.
  destruct (decompile_jar env jar); [by apply combined_groups_refines | by exists w].
Qed.

Lemma combined_loop_refines lower env out hs0 d0 jars acc w :
  comb_inv out hs0 d0 acc w →
  combined_files_ok lower env jars →
  ∃ w',
    for_each (combined_unit lower env out) jars w = (Ok tt, w')
    ∧ comb_inv out hs0 d0 (foldl (spec_unit_step lower env) acc jars) w'.
Proof.
  unfold for_each. revert acc w. induction jars as [|jar jars IH]; intros acc w Hinv Hok.
  - by exists w.
  - rewrite for_fold_cons.
    destruct (combined_unit_refines lower env out hs0 d0 acc jar w Hinv) as (w1 & Hrun & Hinv1).
    { intros ext files f. apply Hok. by left. }
    erewrite bind_ok; [| exact Hrun]. simpl.
    apply IH; [done |]. intros jar' ext files f Hin. apply Hok. by right.
Qed.

(** The [finally] clause closes every file object of the dictionary. *)
Lemma close_loop out hs0 todo closed w :
  handles w = hs0 ++ map (combined_handle out true) closed
                  ++ map (combined_handle out false) todo →
  ∃ w',
    for_each (λ kv : pystr * nat, close kv.2)
      (imap (λ i kv, (kv.1, (length hs0 + length closed + i)%nat)) todo) w
    = (Ok tt, w')
    ∧ handles w' = hs0 ++ map (combined_handle out true) (closed ++ todo)
    ∧ disk w' = appended out todo (disk w)
    ∧ open_files w' = open_files w
    ∧ created_context_files w' = created_context_files w
    ∧ lists w' = lists w ∧ zips w' = zips w ∧ dirs w' = dirs w.
Proof.
  unfold for_each. revert closed w. induction todo as [|kv todo IH]; intros closed w Hh.
  - exists w. simpl in *. by rewrite !app_nil_r in *.
  - rewrite imap_cons, for_fold_cons. simpl.
    assert (Hlook : handles w !! (length hs0 + length closed + 0)%nat
                    = Some (combined_handle out false kv)).
    { rewrite Hh, app_assoc, Nat.add_0_r.
      rewrite <- (length_map (combined_handle out true) closed), <- length_app.
      simpl. apply list_lookup_middle. done. }
    erewrite bind_ok; [| by eapply close_run].
    edestruct (IH (closed ++ [kv])) as (w' & Hrun & Hh' & Hd' & Hrest); last first.
    + exists w'. split.
      * rewrite <- Hrun. f_equal. apply imap_ext. intros i x _. simpl.
        rewrite length_app. simpl. f_equal. lia.
      * rewrite Hh', <- app_assoc. simpl. split; [done |]. split; [exact Hd' | exact Hrest].
    + simpl. rewrite Hh, app_assoc, Nat.add_0_r.
      rewrite <- (length_map (combined_handle out true) closed), <- length_app.
      simpl. rewrite (insert_app_r_alt _ _ (length _)) by lia.
      rewrite Nat.sub_diag. simpl. rewrite map_app, <- !app_assoc. done.
Qed.

(** *** The packer leaves the file objects and the files alone *)

(** The packer only touches list objects and archives. *)
Lemma frame_create_archives (R : relation World) `{!PreOrder R} files out c prefix src :
  (∀ w f, R w (set_lists f w)) → (∀ w f, R w (set_zips f w)) →
  frame R (create_archives files out c prefix src).
Proof.
  intros Hlists Hzips. unfold create_archives.
  apply frame_bind; [apply _ | apply frame_get, _ | intros fs0].
  destruct fs0 as [|f0 fs0]; [apply frame_ret, _ |].
  apply frame_bind; [apply _ | apply frame_floordiv, _ | intros n].
  apply frame_bind; [apply _ | intros w; apply Hlists | intros _].
  apply frame_bind; [apply _ | apply frame_get, _ | intros fs].
  apply frame_bind; [apply _ | apply frame_py_range, _ | intros starts].
  apply frame_for_each; [apply _ | intros i]. unfold archive_step.
  apply frame_bind; [apply _ | apply frame_floordiv, _ | intros q].
  apply frame_bind; [apply _ | intros w; apply Hzips | intros z].
  apply frame_for_each; [apply _ | intros f].
  apply frame_bind; [apply _ | apply frame_arcname, _ | intros a].
  intros w. apply Hzips.
Qed.

Lemma mkdir_handles b p w : handles (mkdir b p w).2 = handles w.
Proof. unfold mkdir. case_decide; [by destruct b | done]. Qed.

Lemma mkdir_disk b p w : disk (mkdir b p w).2 = disk w.
Proof. unfold mkdir. case_decide; [by destruct b | done]. Qed.

(** Opening a file that will be appended to does not change the outcome. *)
Lemma append_to_touch p t d : append_to p t (touch p d) = append_to p t d.
Proof.
  unfold append_to, touch, text in *. destruct (d !! p) eqn:Hp; [by rewrite Hp |].
  by rewrite lookup_insert_eq, insert_insert_eq.
Qed.

Lemma append_to_touch_ne p q t d :
  p ≠ q → append_to p t (touch q d) = touch q (append_to p t d).
Proof.
  intros Hne. unfold append_to, touch. rewrite lookup_insert_ne by done.
  destruct (d !! q) eqn:Hq; [done |].
  rewrite lookup_insert_ne by done. by apply insert_insert_ne.
Qed.

Lemma appended_touch out acc k d :
  k ∈ acc.*1 →
  appended out acc (touch (path_div out (combined_filename k)) d) = appended out acc d.
Proof.
  unfold appended. revert d. induction acc as [|[k' t] acc IH]; intros d Hin.
  - by apply elem_of_nil in Hin.
  - simpl.
    destruct (decide (path_div out (combined_filename k') = path_div out (combined_filename k)))
      as [Heq|Hne].
    + by rewrite <- Heq, append_to_touch.
    + rewrite append_to_touch_ne by done. apply IH.
      rewrite fmap_cons in Hin. apply elem_of_cons in Hin as [->|Hin]; [done | exact Hin].
Qed.

Lemma appended_touched out acc keys d :
  keys ⊆ acc.*1 → appended out acc (touched out keys d) = appended out acc d.
Proof.
  unfold touched. revert d. induction keys as [|k keys IH] using rev_ind; intros d Hsub.
  - done.
  - rewrite foldl_app. simpl. rewrite appended_touch by set_solver. apply IH. set_solver.
Qed.

(** The Combined branch of [main]: the file objects it leaves are those of
    the dictionary, all closed, and the files are the ones it found with the
    texts of the dictionary appended. *)
Lemma main_combined_run lower env args script_dir input_dir jars w :
  combined_files_ok lower env jars →
  let out := path_div script_dir (s<"_decompiled_combined_"> ++ path_name input_dir) in
  let r := main_combined lower env args script_dir input_dir jars w in
  handles r.2 = handles w ++ map (combined_handle out true) (spec_combined lower env jars)
  ∧ disk r.2 = appended out (spec_combined lower env jars) (disk w).
Proof.
  intros Hok out r. set (wf := r.2). assert (Hwf : wf = r.2) by done. clearbody wf.
  subst r. unfold main_combined in Hwf. fold out in Hwf.
  unfold bind at 1 in Hwf.
  pose proof (mkdir_exist_ok_run out w) as Hmk1. pose proof (mkdir_handles true out w) as Hmk2.
  pose proof (mkdir_disk true out w) as Hmk3.
  destruct (mkdir true out w) as [r0 w0]. simpl in Hmk1, Hmk2, Hmk3. subst r0.
  unfold bind at 1, modify at 1 in Hwf. unfold bind at 1, modify at 1 in Hwf.
  set (w1 := set_created (λ _, []) (set_open_files (λ _, []) w0)) in Hwf.
  destruct (combined_loop_refines lower env out (handles w) (disk w) jars [] w1)
    as (w2 & Hloop & Hof2 & Hh2 & Hd2); [| done |].
  { split; [done |]. subst w1. simpl. by rewrite Hmk2, Hmk3, app_nil_r. }
  destruct (close_loop out (handles w) (foldl (spec_unit_step lower env) [] jars) [] w2)
    as (w3 & Hclose & Hh3 & Hd3 & _); [by rewrite Hh2 |].
  assert (Hfin : try_finally (for_each (combined_unit lower env out) jars) close_open_files w1
                 = (Ok tt, w3)).
  { unfold try_finally. rewrite Hloop. unfold close_open_files, bind, get.
    rewrite Hof2.
    rewrite (imap_ext _ (λ i kv, (kv.1, (length (handles w) + length (@nil (pystr * text)) + i)%nat)))
      by (intros; simpl; f_equal; lia).
    by rewrite Hclose. }
  unfold bind at 1 in Hwf. rewrite Hfin in Hwf.
  match type of Hwf with
  | wf = (?m w3).2 =>
      assert (Hf : frame (λ w w', handles w' = handles w ∧ disk w' = disk w) m)
  end.
  { assert (PreOrder (λ w w' : World, handles w' = handles w ∧ disk w' = disk w)).
    { split; [by intros w' | intros x y z [? ?] [? ?]; split; congruence]. }
    apply frame_bind; [apply _ | apply frame_get, _ | intros created].
    apply frame_bind; [apply _ | by intros w' | intros l].
    by apply frame_create_archives. }
  destruct (Hf w3) as [Hfh Hfd]. rewrite <- Hwf in Hfh, Hfd. rewrite Hfh, Hfd.
  split; [exact Hh3 |].
  rewrite Hd3, Hd2. by apply appended_touched.
Qed.

Lemma main_combined_refines lower env args script_dir input_dir jars w :
  combined_files_ok lower env jars →
  handles (main_combined lower env args script_dir input_dir jars w).2
  = handles w
    ++ map (combined_handle
              (path_div script_dir (s<"_decompiled_combined_"> ++ path_name input_dir)) true)
         (spec_combined lower env jars).
Proof. intros Hok. by apply main_combined_run. Qed.

(** *** What the dictionary holds *)

Lemma group_add_keys k p groups :
  (group_add k p groups).*1 = if decide (k ∈ groups.*1) then groups.*1 else groups.*1 ++ [k].
Proof.
  induction groups as [|[k' ps] groups IH]; [done |].
  cbn [group_add]. destruct (decide (k = k')) as [->|Hk]; rewrite !fmap_cons; cbn [fst].
  - rewrite decide_True; [done | by left].
  - rewrite IH. destruct (decide (k ∈ groups.*1)) as [Hin|Hnin].
    + rewrite decide_True; [done | by right].
    + rewrite decide_False; [done |]. rewrite not_elem_of_cons. done.
Qed.

Lemma NoDup_snoc_keys (keys : list pystr) k :
  NoDup keys → NoDup (if decide (k ∈ keys) then keys else keys ++ [k]).
Proof.
  intros Hnd. case_decide; [done |]. apply NoDup_app. split; [done |].
  split; [| apply NoDup_singleton]. intros x Hx Hx'.
  apply list_elem_of_singleton in Hx' as ->. done.
Qed.

Lemma group_files_NoDup lower files : NoDup (group_files lower files).*1.
Proof.
  unfold group_files.
  assert (H : ∀ groups, NoDup groups.*1 →
              NoDup (foldl (λ groups file_path,
                              group_add (classify lower file_path) file_path groups)
                       groups files).*1).
  { induction files as [|f files IH]; intros groups Hnd; simpl; [done |].
    apply IH. rewrite group_add_keys. by apply NoDup_snoc_keys. }
  apply H. constructor.
Qed.

Lemma unit_groups_NoDup lower env jar : NoDup (unit_groups lower env jar).*1.
Proof.
  unfold unit_groups. destruct (decompile_jar env jar); [apply group_files_NoDup | constructor].
Qed.

Lemma spec_key_step_keys env jar acc item ext :
  ext ∈ (spec_key_step env jar acc item).*1
  ↔ ext ∈ acc.*1 ∨ (ext = item.1 ∧ is_binary ext = false).
Proof.
  unfold spec_key_step. destruct (is_binary item.1) eqn:Hb.
  - split; [by left |]. intros [H | [-> H]]; [done | congruence].
  - rewrite dict_append_keys. case_decide as Hin.
    + split; [by left |]. intros [H | [-> H]]; done.
    + rewrite elem_of_app, list_elem_of_singleton. split.
      * intros [H | ->]; [by left | by right].
      * intros [H | [-> H]]; [by left | by right].
Qed.

Lemma spec_key_step_NoDup env jar acc item :
  NoDup acc.*1 → NoDup (spec_key_step env jar acc item).*1.
Proof.
  intros Hnd. unfold spec_key_step. destruct (is_binary item.1); [done |].
  rewrite dict_append_keys. by apply NoDup_snoc_keys.
Qed.

Lemma spec_groups_keys env jar groups acc ext :
  ext ∈ (foldl (spec_key_step env jar) acc groups).*1
  ↔ ext ∈ acc.*1 ∨ (is_binary ext = false ∧ ∃ files, (ext, files) ∈ groups).
Proof.
  revert acc. induction groups as [|[k files] groups IH]; intros acc; simpl.
  - split; [by left |]. intros [H | [_ [files H]]]; [done | by apply elem_of_nil in H].
  - rewrite IH, spec_key_step_keys. simpl. split.
    + intros [[H | [-> Hb]] | [Hb [fs H]]].
      * by left.
      * right. split; [done |]. exists files. by left.
      * right. split; [done |]. exists fs. by right.
    + intros [H | [Hb [fs H]]]; [by left; left |].
      apply elem_of_cons in H as [[= -> ->] | H].
      * left. by right.
      * right. split; [done |]. by exists fs.
Qed.

Lemma spec_groups_NoDup env jar groups acc :
  NoDup acc.*1 → NoDup (foldl (spec_key_step env jar) acc groups).*1.
Proof.
  revert acc. induction groups as [|item groups IH]; intros acc Hnd; simpl; [done |].
  by apply IH, spec_key_step_NoDup.
Qed.

Lemma spec_units_keys lower env jars acc ext :
  ext ∈ (foldl (spec_unit_step lower env) acc jars).*1
  ↔ ext ∈ acc.*1
    ∨ (is_binary ext = false
       ∧ ∃ jar files, jar ∈ jars ∧ (ext, files) ∈ unit_groups lower env jar).
Proof.
  revert acc. induction jars as [|jar jars IH]; intros acc; simpl.
  - split; [by left |]. intros [H | [_ (jar & files & H & _)]]; [done |].
    by apply elem_of_nil in H.
  - rewrite IH. unfold spec_unit_step. rewrite spec_groups_keys. split.
    + intros [[H | [Hb [fs H]]] | [Hb (j & fs & Hj & H)]].
      * by left.
      * right. split; [done |]. exists jar, fs. split; [by left | done].
      * right. split; [done |]. exists j, fs. split; [by right | done].
    + intros [H | [Hb (j & fs & Hj & H)]]; [by left; left |].
      apply elem_of_cons in Hj as [-> | Hj].
      * left. right. split; [done |]. by exists fs.
      * right. split; [done |]. by exists j, fs.
Qed.

Lemma spec_units_NoDup lower env jars acc :
  NoDup acc.*1 → NoDup (foldl (spec_unit_step lower env) acc jars).*1.
Proof.
  revert acc. induction jars as [|jar jars IH]; intros acc Hnd; simpl; [done |].
  by apply IH, spec_groups_NoDup.
Qed.

(** The text of a key in the dictionary, empty for an absent key. *)
Definition text_of (acc : list (pystr * text)) (ext : pystr) : text :=
  default [] (dict_get acc ext).

Lemma spec_key_step_text env jar acc item ext :
  is_binary ext = false →
  text_of (spec_key_step env jar acc item) ext
  = text_of acc ext ++ (if decide (item.1 = ext) then key_records env jar item.2 else []).
Proof.
  intros Hb. unfold spec_key_step, text_of.
  destruct (decide (item.1 = ext)) as [Heq|Hne].
  - rewrite Heq, Hb, dict_get_append. by rewrite decide_True.
  - destruct (is_binary item.1); [by rewrite app_nil_r |].
    rewrite dict_get_append. rewrite decide_False by done. by rewrite app_nil_r.
Qed.

Lemma spec_groups_text env jar groups acc ext :
  is_binary ext = false → NoDup groups.*1 →
  text_of (foldl (spec_key_step env jar) acc groups) ext
  = text_of acc ext ++ match dict_get groups ext with
                       | Some files => key_records env jar files
                       | None => []
                       end.
Proof.
  intros Hb. revert acc. induction groups as [|[k files] groups IH]; intros acc Hnd.
  - simpl. by rewrite app_nil_r.
  - rewrite fmap_cons in Hnd. apply NoDup_cons in Hnd as [Hk Hnd]. simpl in Hk.
    cbn [foldl dict_get]. rewrite IH by done. rewrite spec_key_step_text by done. simpl.
    destruct (decide (k = ext)) as [->|Hne].
    + rewrite decide_True by done.
      apply dict_get_None in Hk. rewrite Hk. by rewrite app_nil_r.
    + rewrite decide_False by done. by rewrite app_nil_r.
Qed.

Lemma spec_units_text lower env jars acc ext :
  is_binary ext = false →
  text_of (foldl (spec_unit_step lower env) acc jars) ext
  = text_of acc ext ++ concat (map (unit_records lower env ext) jars).
Proof.
  intros Hb. revert acc. induction jars as [|jar jars IH]; intros acc; simpl.
  - by rewrite app_nil_r.
  - rewrite IH. unfold spec_unit_step.
    rewrite spec_groups_text by (done || apply unit_groups_NoDup).
    unfold unit_records at 1. by rewrite <- app_assoc.
Qed.

(** C4. In Combined mode, when every file of the extracted archives can be
    read, the run opens exactly one file object per non-binary key that
    occurs in some extracted archive: it is [<stem>_context_1.txt] in the
    run's output directory, opened in append mode, and by the end of the
    run it is closed and holds, archive after archive in the order of the
    run, the records of the key's files, each a header naming the source
    archive and the file followed by the file's content. No second part is
    ever opened for a key. *)
Theorem combined_one_bundle_per_key lower env args script_dir input_dir jars w :
  combined_files_ok lower env jars →
  let out := path_div script_dir (s<"_decompiled_combined_"> ++ path_name input_dir) in
  let acc := spec_combined lower env jars in
  handles (main_combined lower env args script_dir input_dir jars w).2
  = handles w
    ++ map (λ kv, mkHandle (path_div out (combined_filename kv.1)) ModeA kv.2 true) acc
  ∧ NoDup acc.*1
  ∧ (∀ ext, ext ∈ acc.*1
            ↔ is_binary ext = false
              ∧ ∃ jar files, jar ∈ jars ∧ (ext, files) ∈ unit_groups lower env jar)
  ∧ (∀ ext t, (ext, t) ∈ acc → t = concat (map (unit_records lower env ext) jars)).
Proof.
  intros Hok out acc.
  assert (Hnd : NoDup acc.*1) by (apply spec_units_NoDup; constructor).
  assert (Hkeys : ∀ ext, ext ∈ acc.*1
                         ↔ is_binary ext = false
                           ∧ ∃ jar files, jar ∈ jars ∧ (ext, files) ∈ unit_groups lower env jar).
  { intros ext. unfold acc, spec_combined. rewrite spec_units_keys. split.
    - intros [H | H]; [by apply elem_of_nil in H | done].
    - intros H. by right. }
  split; [| split; [done | split; [done |]]].
  - by apply main_combined_refines.
  - intros ext t Hin.
    assert (Hb : is_binary ext = false).
    { apply Hkeys. by apply (list_elem_of_fmap_2 fst acc (ext, t)). }
    pose proof (spec_units_text lower env jars [] ext Hb) as Htext.
    unfold text_of in Htext. fold (spec_combined lower env jars) in Htext. fold acc in Htext.
    by rewrite (elem_of_dict_get acc ext t Hnd Hin) in Htext.
Qed.

(** Two input archives, each holding one [a.txt]. *)
Definition two_jars : list Path := [[s<"in">; s<"a.jar">]; [s<"in">; s<"b.jar">]].
Definition two_jars_env : Env :=
  mkEnv (λ _, true) (λ _, two_jars) (λ _, true) (λ _, scratch)
        (λ _, [([s<"a.txt">], true)]) (λ _, Some 1%N) (λ _, Some [Byte.x41]).

Lemma combined_one_bundle_per_key_witness :
  combined_files_ok ascii_lower two_jars_env two_jars
  ∧ handles (main_combined ascii_lower two_jars_env combined_args [s<"s">] [s<"in">]
               two_jars empty_world).2
    = [mkHandle [s<"s">; s<"_decompiled_combined_in">; s<"txt_context_1.txt">] ModeA
         ((combined_header s<"a.jar"> s<"a.txt"> ++ [65%N])
          ++ combined_header s<"b.jar"> s<"a.txt"> ++ [65%N]) true].
Proof.
  assert (Hok : combined_files_ok ascii_lower two_jars_env two_jars).
  { intros jar ext files f _ _ _ _. by eexists. }
  split; [exact Hok |].
  destruct (combined_one_bundle_per_key ascii_lower two_jars_env combined_args
              [s<"s">] [s<"in">] two_jars empty_world Hok) as [Hrun _].
  rewrite Hrun. vm_compute. reflexivity.
Defined.

(** ** Combined mode only appends *)

(** From [w] to [w']: every file keeps its content as a prefix, the
    directories stay, the file objects of [w] keep their file and mode, and
    every new file object is in append mode. *)
Definition appends_only (w w' : World) : Prop :=
  (∀ p old, disk w !! p = Some old → ∃ new, disk w' !! p = Some (old ++ new))
  ∧ dirs w ⊆ dirs w'
  ∧ (∀ i hd, handles w !! i = Some hd →
             ∃ hd', handles w' !! i = Some hd'
                    ∧ h_path hd' = h_path hd ∧ h_mode hd' = h_mode hd)
  ∧ (∀ i hd', (length (handles w) ≤ i)%nat → handles w' !! i = Some hd' →
              h_mode hd' = ModeA).

Global Instance appends_only_preorder : PreOrder appends_only.
Proof.
  split.
  - intros w. split; [| split; [| split]].
    + intros p old Hp. exists []. by rewrite app_nil_r.
    + done.
    + intros i hd Hi. by exists hd.
    + intros i hd Hlen Hi. apply lookup_lt_Some in Hi. lia.
  - intros w1 w2 w3 (Hd1 & Hdir1 & Hold1 & Hnew1) (Hd2 & Hdir2 & Hold2 & Hnew2).
    split; [| split; [| split]].
    + intros p old Hp. destruct (Hd1 p old Hp) as [new1 Hp1].
      destruct (Hd2 p _ Hp1) as [new2 Hp2]. exists (new1 ++ new2).
      by rewrite app_assoc.
    + set_solver.
    + intros i hd Hi. destruct (Hold1 i hd Hi) as (hd1 & Hi1 & Hp1 & Hm1).
      destruct (Hold2 i hd1 Hi1) as (hd2 & Hi2 & Hp2 & Hm2).
      exists hd2. split; [done |]. split; congruence.
    + intros i hd3 Hlen Hi3.
      destruct (handles w2 !! i) as [hd2|] eqn:Hi2.
      * destruct (Hold2 i hd2 Hi2) as (hd3' & Hi3' & _ & Hm).
        assert (hd3' = hd3) as -> by congruence. rewrite Hm.
        by apply (Hnew1 i).
      * apply (Hnew2 i); [| done]. by apply lookup_ge_None.
Qed.


















(** ** Combined mode closes what it opens *)

(** Every file object that is still open is one of [open_files]. *)
Definition tracked (w : World) : Prop :=
  ∀ i hd, handles w !! i = Some hd → h_closed hd = false → i ∈ (open_files w).*2.

Definition keeps_tracked : relation World := λ w w', tracked w → tracked w'.

Global Instance keeps_tracked_preorder : PreOrder keeps_tracked.
Proof. split; [intros w Ht; exact Ht | intros w1 w2 w3 H1 H2 H; by apply H2, H1]. Qed.

Lemma keeps_tracked_write h t : frame keeps_tracked (write h t).
Proof.
  intros w. unfold keeps_tracked. intros Ht.
  unfold write. destruct (handles w !! h) as [hd|] eqn:Hh; [| done].
  destruct (h_closed hd) eqn:Hc; [done |]. simpl.
  intros i hd' Hi Hopen. simpl in *.
  destruct (decide (i = h)) as [->|Hne].
  - by apply (Ht h hd).
  - rewrite list_lookup_insert_ne in Hi by done. by apply (Ht i hd').
Qed.

Lemma keeps_tracked_open p ext f :
  frame keeps_tracked
    (let* h := open_file p ModeA in
     modify (set_open_files (λ d, d ++ [(ext, h)]));;; modify (set_created f)).
Proof.
  intros w. unfold keeps_tracked. intros Ht. unfold bind, open_file, modify. simpl.
  assert (Hsame : ∀ w1 : World,
             w1 = match disk w !! p with Some _ => w | None => set_disk <[p:=[]]> w end →
             handles w1 = handles w ∧ open_files w1 = open_files w).
  { intros w1 ->. by destruct (disk w !! p). }
  destruct (Hsame _ eq_refl) as [Hh Hof].
  intros i hd Hi Hopen. simpl in *. rewrite Hh in Hi. rewrite Hof, fmap_app. simpl.
  apply elem_of_app. apply lookup_app_Some in Hi as [Hi | [Hlen Hi]].
  - left. by apply (Ht i hd).
  - right. apply list_lookup_singleton_Some in Hi as [Hi _].
    assert (i = length (handles w)) as -> by lia. by left.
Qed.

Lemma keeps_tracked_combined_unit lower env out jar :
  frame keeps_tracked (combined_unit lower env out jar).
Proof.
  unfold combined_unit. destruct (decompile_jar env jar); [| apply frame_ret, _].
  apply frame_for_each; [apply _ | intros [ext files]]. unfold combined_key_step.
  destruct (is_binary ext); [apply frame_ret, _ |].
  apply frame_bind; [apply _ | apply frame_get, _ | intros opened].
  apply frame_bind; [apply _ | | intros _].
  { destruct (dict_get opened ext); [apply frame_ret, _ | apply keeps_tracked_open]. }
  apply frame_bind; [apply _ | apply frame_get, _ | intros opened'].
  destruct (dict_get opened' ext) as [h|]; [| apply frame_raise, _].
  apply frame_for_each; [apply _ | intros f]. unfold combined_file_step.
  apply frame_bind; [apply _ | apply keeps_tracked_write | intros _].
  apply frame_bind; [apply _ | apply frame_read_content, _ | intros content].
  apply keeps_tracked_write.
Qed.

(** Closing the file objects of a list closes them all, and opens none. *)
Lemma close_all (l : list (pystr * nat)) w r w' :
  for_each (λ kv : pystr * nat, close kv.2) l w = (r, w') →
  r = Ok tt
  ∧ ∀ i hd', handles w' !! i = Some hd' → h_closed hd' = false →
             (i ∉ l.*2) ∧ ∃ hd, handles w !! i = Some hd ∧ h_closed hd = false.
Proof.
  unfold for_each. revert w. induction l as [|[k h] l IH]; intros w.
  - simpl. intros [= <- <-]. split; [done |].
    intros i hd' Hi Hopen. split; [apply not_elem_of_nil | by exists hd'].
  - rewrite for_fold_cons. unfold bind at 1. cbn [snd].
    assert (Hc : ∃ w1, close h w = (Ok tt, w1)
                 ∧ (∀ hd, handles w1 !! h = Some hd → h_closed hd = true)
                 ∧ ∀ i hd1, handles w1 !! i = Some hd1 → h_closed hd1 = false →
                            ∃ hd, handles w !! i = Some hd ∧ h_closed hd = false).
    { unfold close. destruct (handles w !! h) as [hd|] eqn:Hh.
      - destruct (h_closed hd) eqn:Hcl.
        + exists w. split; [done |]. split; [| by eauto]. intros hd0 Hh0.
          rewrite Hh in Hh0. by injection Hh0 as <-.
        + eexists. split; [done |]. simpl. split.
          * intros hd0 Hh0. rewrite list_lookup_insert_eq in Hh0 by (by eapply lookup_lt_Some).
            by injection Hh0 as <-.
          * intros i hd1 Hi Hopen. destruct (decide (i = h)) as [->|Hne].
            -- rewrite list_lookup_insert_eq in Hi by (by eapply lookup_lt_Some).
               injection Hi as <-. done.
            -- rewrite list_lookup_insert_ne in Hi by done. by eauto.
      - exists w. split; [done |]. split; [| by eauto]. intros hd0 Hh0. by rewrite Hh in Hh0. }
    destruct Hc as (w1 & -> & Hclosed & Hold). simpl. intros Hrun.
    destruct (IH w1 Hrun) as [Hok Hrest]. split; [exact Hok |].
    intros i hd' Hi Hopen. destruct (Hrest i hd' Hi Hopen) as (Hnin & hd1 & Hi1 & Hopen1).
    split.
    + rewrite not_elem_of_cons. split; [| done]. simpl. intros ->.
      rewrite (Hclosed hd1 Hi1) in Hopen1. done.
    + by apply (Hold i hd1).
Qed.

(** Whatever happens while the input archives are processed, Combined
    mode ends with every file object closed. *)
Theorem combined_closes_handles lower env args script_dir input_dir jars w :
  (∀ hd, hd ∈ handles w → h_closed hd = true) →
  ∀ hd, hd ∈ handles (main_combined lower env args script_dir input_dir jars w).2 →
        h_closed hd = true.
Proof.
  intros Hw. unfold main_combined.
  set (out := path_div script_dir (s<"_decompiled_combined_"> ++ path_name input_dir)).
  unfold bind at 1.
  pose proof (mkdir_exist_ok_run out w) as Hmk1. pose proof (mkdir_handles true out w) as Hmk2.
  destruct (mkdir true out w) as [r0 w0]. simpl in Hmk1, Hmk2. subst r0.
  unfold bind at 1, modify at 1. unfold bind at 1, modify at 1.
  set (w1 := set_created (λ _, []) (set_open_files (λ _, []) w0)).
  assert (Ht1 : tracked w1).
  { intros i hd Hi Hopen. subst w1. simpl in Hi. rewrite Hmk2 in Hi.
    rewrite (Hw hd) in Hopen; [done | by eapply list_elem_of_lookup_2]. }
  assert (Hall : ∀ r w3,
            try_finally (for_each (combined_unit lower env out) jars) close_open_files w1 = (r, w3) →
            ∀ hd, hd ∈ handles w3 → h_closed hd = true).
  { intros r w3. unfold try_finally.
    pose proof (frame_for_each keeps_tracked (combined_unit lower env out) jars
                  (keeps_tracked_combined_unit lower env out) w1 Ht1) as Ht2.
    destruct (for_each (combined_unit lower env out) jars w1) as [r2 w2]. simpl in Ht2.
    unfold close_open_files, bind, get.
    destruct (for_each _ (open_files w2) w2) as [r3 w3'] eqn:Hclose.
    destruct (close_all _ _ _ _ Hclose) as [-> Hrest].
    intros [= <- <-] hd Hin. apply list_elem_of_lookup_1 in Hin as [i Hi].
    destruct (h_closed hd) eqn:Hopen; [done |].
    destruct (Hrest i hd Hi Hopen) as (Hnin & hd2 & Hi2 & Hopen2).
    destruct Hnin. by apply (Ht2 i hd2). }
  unfold bind at 1.
  destruct (try_finally _ close_open_files w1) as [[[]|e] w3] eqn:Hfin.
  - match goal with |- ∀ hd, hd ∈ handles (?m w3).2 → _ =>
      assert (Hf : frame (λ w w', handles w' = handles w) m)
    end.
    { assert (PreOrder (λ w w' : World, handles w' = handles w)).
      { split; [by intros w' | intros x y z ? ?; congruence]. }
      apply frame_bind; [apply _ | apply frame_get, _ | intros created].
      apply frame_bind; [apply _ | by intros w' | intros l].
      by apply frame_create_archives. }
    rewrite Hf. by eapply Hall.
  - simpl. by eapply Hall.
Qed.

Lemma combined_closes_handles_witness :
  main_combined ascii_lower vanishing_env combined_args [s<"s">] [s<"in">]
    [[s<"in">; s<"a.jar">]] empty_world
  = (Raise FileNotFoundError,
     (main_combined ascii_lower vanishing_env combined_args [s<"s">] [s<"in">]
        [[s<"in">; s<"a.jar">]] empty_world).2)
  ∧ length (handles (main_combined ascii_lower vanishing_env combined_args [s<"s">] [s<"in">]
                       [[s<"in">; s<"a.jar">]] empty_world).2) = 1%nat
  ∧ ∀ hd, hd ∈ handles (main_combined ascii_lower vanishing_env combined_args [s<"s">] [s<"in">]
                          [[s<"in">; s<"a.jar">]] empty_world).2 →
          h_closed hd = true.
Proof.
  split; [by vm_compute |]. split; [by vm_compute |].
  apply (combined_closes_handles ascii_lower vanishing_env combined_args [s<"s">] [s<"in">]
           [[s<"in">; s<"a.jar">]] empty_world).
  intros hd Hin. simpl in Hin. by apply elem_of_nil in Hin.
Defined.

(** * Further properties of the code *)

(** ** The packer on a chunk size that is not positive *)

(** X2. On a list that is not empty, a chunk size of zero makes the packer
    raise [ZeroDivisionError] before it has sorted the list or created an
    archive; a negative chunk size makes it sort the list and return
    without creating any archive, as [range(0, len(files), chunk_size)] is
    empty. *)
Theorem create_archives_bad_chunk files out c prefix src w fs :
  lists w !! files = Some fs → fs ≠ [] → c ≤ 0 →
  create_archives files out c prefix src w
  = if decide (c = 0) then (Raise ZeroDivisionError, w)
    else (Ok tt, set_lists (alter sorted files) w).
Proof.
  intros Hl Hne Hc. unfold create_archives, list_get, get. unfold bind at 1. simpl.
  rewrite Hl. simpl. destruct fs as [|f0 fs0]; [done |].
  unfold floordiv. destruct (decide (c = 0)) as [->|Hc0]; [done |].
  unfold bind at 1, ret at 1. unfold bind at 1, list_sort at 1, modify at 1.
  unfold bind at 1. simpl. rewrite lookup_alter_eq, Hl. simpl.
  unfold py_range. rewrite decide_False by done. rewrite decide_False by lia.
  rewrite decide_False by lia. done.
Qed.

Lemma create_archives_bad_chunk_witness :
  create_archives 0 [s<"out">] (-2) s<"p"> None (one_list_world [[s<"b">]; [s<"a">]])
  = (Ok tt, one_list_world [[s<"a">]; [s<"b">]])
  ∧ create_archives 0 [s<"out">] 0 s<"p"> None (one_list_world [[s<"b">]; [s<"a">]])
    = (Raise ZeroDivisionError, one_list_world [[s<"b">]; [s<"a">]]).
Proof.
  split.
  - rewrite (create_archives_bad_chunk 0 [s<"out">] (-2) s<"p"> None
               (one_list_world [[s<"b">]; [s<"a">]]) [[s<"b">]; [s<"a">]]);
      [| reflexivity | discriminate | lia].
    vm_compute. reflexivity.
  - rewrite (create_archives_bad_chunk 0 [s<"out">] 0 s<"p"> None
               (one_list_world [[s<"b">]; [s<"a">]]) [[s<"b">]; [s<"a">]]);
      [| reflexivity | discriminate | lia].
    reflexivity.
Defined.

(** ** The packer on a positive chunk size *)






(** ** Individual mode, direct archiving *)







(** ** The grouping loop *)

Lemma dict_get_group_add k p groups k' :
  dict_get (group_add k p groups) k'
  = if decide (k = k') then Some (default [] (dict_get groups k) ++ [p])
    else dict_get groups k'.
Proof.
  induction groups as [|[k0 ps] groups IH]; simpl.
  - destruct (decide (k' = k)) as [->|Hne].
    + by rewrite decide_True.
    + rewrite decide_False by done. done.
  - destruct (decide (k = k0)) as [->|Hk]; simpl.
    + destruct (decide (k' = k0)) as [->|Hk'].
      * by rewrite decide_True.
      * rewrite decide_False by done. done.
    + rewrite IH. destruct (decide (k' = k0)) as [->|Hk'].
      * by rewrite decide_False.
      * done.
Qed.

Lemma dict_get_group_fold lower files groups k :
  dict_get (foldl (λ groups f, group_add (classify lower f) f groups) groups files) k
  = match filter (λ f, classify lower f = k) files with
    | [] => dict_get groups k
    | fs => Some (default [] (dict_get groups k) ++ fs)
    end.
Proof.
  revert groups. induction files as [|f files IH]; intros groups; [done |].
  simpl. rewrite IH, dict_get_group_add.
  destruct (decide (classify lower f = k)) as [Hk|Hk].
  - rewrite filter_cons_True by done. simpl. subst k.
    destruct (filter _ files); [done |]. by rewrite <- app_assoc.
  - by rewrite filter_cons_False by done.
Qed.

Lemma elem_of_group_files lower files k fs :
  (k, fs) ∈ group_files lower files
  ↔ fs = filter (λ f, classify lower f = k) files ∧ fs ≠ [].
Proof.
  pose proof (group_files_NoDup lower files) as Hnd. split.
  - intros Hin. apply (elem_of_dict_get _ _ _ Hnd) in Hin.
    unfold group_files in Hin. rewrite dict_get_group_fold in Hin.
    destruct (filter _ files) as [|f0 fs0]; [done |].
    simpl in Hin. injection Hin as <-. done.
  - intros [-> Hne]. apply dict_get_elem_of.
    unfold group_files. rewrite dict_get_group_fold.
    by destruct (filter _ files).
Qed.

(** X4. The grouping loop partitions the files by key: the keys of the
    dictionary are distinct, and the list of a key holds exactly the files
    of that key, in the order they were listed; no key has an empty
    list, and every file is in the list of its key. *)
Theorem group_files_partition lower files :
  NoDup (group_files lower files).*1
  ∧ (∀ k fs, (k, fs) ∈ group_files lower files
             ↔ fs = filter (λ f, classify lower f = k) files ∧ fs ≠ [])
  ∧ (∀ f, f ∈ files → ∃ fs, (classify lower f, fs) ∈ group_files lower files ∧ f ∈ fs).
Proof.
  pose proof (elem_of_group_files lower files) as Hget.
  split; [apply group_files_NoDup |]. split; [done |].
  intros f Hf. exists (filter (λ f', classify lower f' = classify lower f) files).
  assert (Hin : f ∈ filter (λ f', classify lower f' = classify lower f) files)
    by (by apply list_elem_of_filter).
  split; [| done]. apply Hget. split; [done |]. intros Heq. rewrite Heq in Hin.
  by apply elem_of_nil in Hin.
Qed.

(** ** The list objects of a grouping *)



(** ** What the aggregator leaves alone *)


Definition same_zips : relation World := λ w w', zips w' = zips w.

Global Instance same_zips_preorder : PreOrder same_zips.
Proof. split; [by intros w | intros w1 w2 w3 H1 H2; unfold same_zips in *; congruence]. Qed.


(** ** Keys that are binary extensions *)







(** ** Individual mode, context archiving: from the tree to the archives *)






(** ** The order of the input archives *)

(** X7. [main] processes the input archives in path order, whatever the
    order in which [glob] lists them: two environments that differ only in
    that order give the same run. *)
Theorem main_glob_order lower env args script_dir input_dir jars :
  jars ≡ₚ glob_jars env input_dir →
  main lower
    (mkEnv (is_dir env) (λ _, jars) (decompile_jar env) (temp_dir env) (tree env)
           (st_size env) (read_bytes env))
    args script_dir input_dir
  = main lower env args script_dir input_dir.
Proof.
  intros Hp. destruct env as [isd glob dec tmp tr st rd]. simpl in Hp.
  unfold main. simpl.
  replace (sorted jars) with (sorted (glob input_dir)).
  - reflexivity.
  - apply sorted_unique; [apply sorted_Sorted |]. by rewrite sorted_Permutation.
Qed.

Lemma main_glob_order_witness :
  main ascii_lower
    (mkEnv (is_dir two_jars_env) (λ _, [[s<"in">; s<"b.jar">]; [s<"in">; s<"a.jar">]])
       (decompile_jar two_jars_env) (temp_dir two_jars_env) (tree two_jars_env)
       (st_size two_jars_env) (read_bytes two_jars_env))
    combined_args [s<"s">] [s<"in">]
  = main ascii_lower two_jars_env combined_args [s<"s">] [s<"in">].
Proof.
  apply (main_glob_order ascii_lower two_jars_env combined_args [s<"s">] [s<"in">]).
  simpl. apply Permutation_swap.
Defined.

(** ** Files that disappeared before the aggregator looks at them *)

Lemma StronglySorted_filter {A} (R : relation A) (P : A → Prop) `{!∀ x, Decision (P x)} l :
  StronglySorted R l → StronglySorted R (filter P l).
Proof.
  induction 1 as [|x l Hl IH Hx]; [constructor |].
  rewrite filter_cons. case_decide; [| done]. constructor; [done |].
  apply Forall_forall. intros y Hy. apply list_elem_of_filter in Hy as [_ Hy].
  rewrite Forall_forall in Hx. by apply Hx.
Qed.

(** Sorting and leaving files out commute. *)
Lemma sorted_filter (P : Path → Prop) `{!∀ x, Decision (P x)} fs :
  sorted (filter P fs) = filter P (sorted fs).
Proof.
  symmetry. apply sorted_unique.
  - apply StronglySorted_Sorted, StronglySorted_filter.
    apply Sorted_StronglySorted; [apply _ | apply sorted_Sorted].
  - by rewrite sorted_Permutation.
Qed.

Lemma sized_files_filter env fs :
  sized_files env (filter (λ f, is_Some (st_size env f)) fs) = sized_files env fs.
Proof.
  unfold sized_files. induction fs as [|f fs IH]; [done |].
  rewrite filter_cons. destruct (st_size env f) as [n|] eqn:Hst.
  - rewrite decide_True by (by eexists). simpl. rewrite Hst. simpl. f_equal. exact IH.
  - rewrite decide_False by (by intros [? ?]). simpl. rewrite Hst. simpl. exact IH.
Qed.

(** The list objects without the files whose [stat] fails. *)
Definition without_vanished (env : Env) (w : World) : World :=
  set_lists (fmap (filter (λ f, is_Some (st_size env f)))) w.

(** X8. In Individual mode a file whose [stat] fails leaves no trace in
    the bundles: when the files that [stat] finds can be read, the
    aggregator returns the same bundle paths and leaves the same file
    objects as on the same lists with those files removed. *)
Theorem vanished_files_leave_no_trace env grouped out src mb w :
  files_ok env src (lists w) grouped →
  (create_context_files env grouped out src mb w).1
  = (create_context_files env grouped out src mb (without_vanished env w)).1
  ∧ handles (create_context_files env grouped out src mb w).2
    = handles (create_context_files env grouped out src mb (without_vanished env w)).2.
Proof.
  intros Hok.
  assert (Hok' : files_ok env src (lists (without_vanished env w)) grouped).
  { intros ext l f Hin Hb Hf Hst. apply (Hok ext l f Hin Hb); [| done].
    simpl in Hf. rewrite lookup_fmap in Hf. destruct (lists w !! l); simpl in *.
    - by apply list_elem_of_filter in Hf as [_ Hf].
    - done. }
  destruct (create_context_files_refines env grouped out src mb w Hok)
    as (w1 & Hrun1 & Hh1 & _).
  destruct (create_context_files_refines env grouped out src mb _ Hok')
    as (w2 & Hrun2 & Hh2 & _).
  assert (Heq : map (key_bundles env out src (mb_to_bytes mb) (lists (without_vanished env w)))
                  grouped
                = map (key_bundles env out src (mb_to_bytes mb) (lists w)) grouped).
  { apply map_ext. intros [ext l]. unfold key_bundles, key_plan. simpl.
    destruct (is_binary ext); [done |]. f_equal. f_equal.
    rewrite lookup_fmap. destruct (lists w !! l) as [fs|]; simpl.
    - by rewrite sorted_filter, sized_files_filter.
    - reflexivity. }
  rewrite Hrun1, Hrun2. cbn [fst snd]. rewrite Hh1, Hh2, Heq. done.
Qed.

Lemma vanished_files_leave_no_trace_witness :
  files_ok vanished_env scratch
    (lists (one_list_world [scratch ++ [s<"b.txt">]; vanished_file])) [(s<".txt">, 0%nat)]
  ∧ handles (create_context_files vanished_env [(s<".txt">, 0%nat)] [s<"out">] scratch
               (FFinite 100) (one_list_world [scratch ++ [s<"b.txt">]; vanished_file])).2
    = handles (create_context_files vanished_env [(s<".txt">, 0%nat)] [s<"out">] scratch
                 (FFinite 100) (one_list_world [scratch ++ [s<"b.txt">]])).2.
Proof.
  assert (Hok : files_ok vanished_env scratch
            (lists (one_list_world [scratch ++ [s<"b.txt">]; vanished_file]))
            [(s<".txt">, 0%nat)]).
  { intros ext l f Hin _ Hf Hst. apply list_elem_of_singleton in Hin. injection Hin as -> ->.
    change (f ∈ [scratch ++ [s<"b.txt">]; vanished_file]) in Hf.
    rewrite !elem_of_cons in Hf.
    destruct Hf as [-> | [-> | Hf]]; [| | by apply elem_of_nil in Hf].
    - split; by eexists.
    - by destruct Hst. }
  split; [exact Hok |].
  destruct (vanished_files_leave_no_trace vanished_env [(s<".txt">, 0%nat)] [s<"out">]
              scratch (FFinite 100) _ Hok) as [_ Hh].
  rewrite Hh. reflexivity.
Defined.

(** ** Keys whose files fit in one bundle *)

Lemma int_gt_float_mono n n' M :
  (n ≤ n')%N → int_gt_float n' M = false → int_gt_float n M = false.
Proof.
  intros Hle. destruct M as [q| | |]; simpl; try done.
  rewrite !negb_false_iff, !Qle_bool_iff. intros Hq.
  eapply Qle_trans; [| exact Hq]. rewrite <- Zle_Qle. lia.
Qed.

Lemma spec_bundles_fit_loop M cur rest :
  int_gt_float (bundle_bytes (cur ++ rest)) M = false →
  foldl (spec_bundle_step M) (mkBundling [] (Some cur) (bundle_bytes cur)) rest
  = mkBundling [] (Some (cur ++ rest)) (bundle_bytes (cur ++ rest)).
Proof.
  revert cur. induction rest as [|f rest IH]; intros cur Hfit; simpl.
  - by rewrite app_nil_r.
  - unfold spec_bundle_step at 2. simpl.
    assert (Hstep : int_gt_float (bundle_bytes cur + f.2) M = false).
    { eapply int_gt_float_mono; [| exact Hfit]. rewrite bundle_bytes_app. simpl. lia. }
    rewrite Hstep. simpl.
    replace (bundle_bytes cur + f.2)%N with (bundle_bytes (cur ++ [f]))
      by (rewrite bundle_bytes_app; simpl; lia).
    rewrite IH by (by rewrite <- app_assoc). by rewrite <- app_assoc.
Qed.

Lemma spec_bundles_fit M files :
  int_gt_float (bundle_bytes files) M = false →
  spec_bundles M files = match files with [] => [] | _ => [files] end.
Proof.
  intros Hfit. destruct files as [|f rest]; [done |].
  unfold spec_bundles. simpl. unfold spec_bundle_step at 2. simpl.
  replace f.2 with (bundle_bytes [f]) at 1 by (simpl; lia).
  rewrite spec_bundles_fit_loop by done. done.
Qed.

(** The one bundle of a key, none when the key is a binary extension or
    [stat] finds none of its files. *)
Definition single_bundle (env : Env) (output_path src_path : Path)
    (m : gmap nat (list Path)) (item : pystr * nat) : list Handle :=
  if is_binary item.1 then []
  else match sized_files env (sorted (default [] (m !! item.2))) with
       | [] => []
       | files => [bundle_handle env output_path src_path item.1 true 0 files]
       end.

(** X9. A key is never split when the sizes of its files add up to no
    more than the bound: the aggregator then writes all the files of the
    key that [stat] finds, in path order, to the single file
    [<stem>_context_1.txt]. This is so for every key when [--max-size] is
    [nan] or [inf], as no integer compares greater than either. *)
Theorem one_bundle_when_it_fits :
  (∀ env grouped out src mb w,
     files_ok env src (lists w) grouped →
     (∀ ext l, (ext, l) ∈ grouped → is_binary ext = false →
               int_gt_float
                 (bundle_bytes (sized_files env (sorted (default [] (lists w !! l)))))
                 (mb_to_bytes mb) = false) →
     let bundles := concat (map (single_bundle env out src (lists w)) grouped) in
     ∃ w', create_context_files env grouped out src mb w = (Ok (h_path <$> bundles), w')
           ∧ handles w' = handles w ++ bundles)
  ∧ (∀ n, int_gt_float n (mb_to_bytes FNaN) = false
          ∧ int_gt_float n (mb_to_bytes FPosInf) = false).
Proof.
  split; [| done].
  intros env grouped out src mb w Hok Hfit bundles.
  destruct (create_context_files_refines env grouped out src mb w Hok)
    as (w' & Hrun & Hh & _).
  assert (Heq : concat (map (key_bundles env out src (mb_to_bytes mb) (lists w)) grouped)
                = bundles).
  { subst bundles. f_equal. apply map_ext_in. intros [ext l] Hin.
    unfold key_bundles, single_bundle, key_plan. simpl.
    destruct (is_binary ext) eqn:Hb; [done |].
    rewrite spec_bundles_fit by (apply (Hfit ext l); [by apply list_elem_of_In | done]).
    by destruct (sized_files _ _). }
  rewrite Heq in Hrun, Hh. by exists w'.
Qed.

Lemma one_bundle_when_it_fits_witness :
  handles (create_context_files three_files_env [(s<".txt">, 0%nat)] [s<"out">] scratch
             FNaN (one_list_world three_files)).2
  = [ bundle_handle three_files_env [s<"out">] scratch s<".txt"> true 0
        (sized_files three_files_env (sorted three_files)) ]
  ∧ length (sized_files three_files_env (sorted three_files)) = 3%nat.
Proof.
  destruct (proj1 one_bundle_when_it_fits three_files_env [(s<".txt">, 0%nat)]
              [s<"out">] scratch FNaN (one_list_world three_files))
    as (w' & Hrun & Hh).
  - intros ext l f Hin _ Hf _. apply list_elem_of_singleton in Hin. injection Hin as -> ->.
    change (f ∈ three_files) in Hf. unfold three_files in Hf. rewrite !elem_of_cons in Hf.
    destruct Hf as [-> | [-> | [-> | Hf]]]; [| | | by apply elem_of_nil in Hf];
      split; by eexists.
  - intros ext l _ _. apply (proj2 one_bundle_when_it_fits).
  - rewrite Hrun. simpl. rewrite Hh. split; vm_compute; reflexivity.
Defined.

(** ** The names of the parts *)







(** ** Keys that share a bundle name *)

Lemma rfind_dot_Some s i : rfind_dot s = Some i → s !! i = Some DOT.
Proof.
  revert i. induction s as [|c s IH]; intros i; simpl; [done |].
  destruct (rfind_dot s) as [j|].
  - intros [= <-]. simpl. by apply IH.
  - case_bool_decide as Hc; [| done]. intros [= <-]. simpl. by rewrite Hc.
Qed.

Lemma path_suffix_dot p : path_suffix p = [] ∨ startswith_dot (path_suffix p) = true.
Proof.
  unfold path_suffix. destruct (rfind_dot (path_name p)) as [i|] eqn:Hi; [| by left].
  destruct (_ && _); [| by left]. right.
  apply rfind_dot_Some in Hi. rewrite (drop_S _ _ _ Hi). reflexivity.
Qed.

(** What [lower] has to be for the keys to be well formed, as Python's
    [str.lower] is: the empty string stays empty and a leading dot stays
    a leading dot. *)
Definition keeps_dot (lower : pystr → pystr) : Prop :=
  lower [] = [] ∧ ∀ s, startswith_dot s = true → startswith_dot (lower s) = true.

Lemma classify_shape lower p :
  keeps_dot lower →
  classify lower p = s<"no_extension"> ∨ startswith_dot (classify lower p) = true.
Proof.
  intros [Hnil Hdot]. unfold classify.
  destruct (path_suffix_dot p) as [-> | Hs].
  - rewrite Hnil. by left.
  - specialize (Hdot _ Hs). destruct (lower (path_suffix p)); [done | by right].
Qed.

Lemma ext_stem_dot k : startswith_dot k = true → k = DOT :: ext_stem k.
Proof.
  unfold ext_stem. intros Hk. rewrite Hk. destruct k as [|c k]; [done |].
  simpl in *. apply bool_decide_eq_true in Hk as ->. by rewrite drop_0.
Qed.

(** X11. Two files get the same bundle name only if they have the same
    key, with one exception: a file without extension (key
    [no_extension]) and a file whose suffix lower-cases to
    [.no_extension] have different keys and the same bundle name, in both
    modes. *)
Theorem bundle_name_collisions lower p q i :
  keeps_dot lower →
  context_filename (classify lower p) i = context_filename (classify lower q) i
  ∨ combined_filename (classify lower p) = combined_filename (classify lower q) →
  classify lower p = classify lower q
  ∨ (classify lower p = s<"no_extension"> ∧ classify lower q = s<".no_extension">)
  ∨ (classify lower p = s<".no_extension"> ∧ classify lower q = s<"no_extension">).
Proof.
  intros Hl Heq.
  assert (Hstem : ext_stem (classify lower p) = ext_stem (classify lower q)).
  { destruct Heq as [Heq | Heq].
    - revert Heq. with_strategy transparent [context_filename] unfold context_filename.
      intros Heq. rewrite !(app_assoc (ext_stem _)) in Heq.
      rewrite !(app_assoc (ext_stem _ ++ _)) in Heq.
      apply app_inv_tail in Heq. apply app_inv_tail in Heq. by apply app_inv_tail in Heq.
    - revert Heq. with_strategy transparent [combined_filename] unfold combined_filename.
      intros Heq. by apply app_inv_tail in Heq. }
  destruct (classify_shape lower p Hl) as [Hp | Hp],
           (classify_shape lower q Hl) as [Hq | Hq].
  - left. by rewrite Hp, Hq.
  - right. left. split; [done |]. rewrite (ext_stem_dot _ Hq), <- Hstem, Hp. done.
  - right. right. split; [| done]. rewrite (ext_stem_dot _ Hp), Hstem, Hq. done.
  - left. by rewrite (ext_stem_dot _ Hp), (ext_stem_dot _ Hq), Hstem.
Qed.

Lemma ascii_lower_keeps_dot : keeps_dot ascii_lower.
Proof.
  split; [done |]. intros [|c s]; simpl; [done |]. intros Hc.
  apply bool_decide_eq_true in Hc as ->. done.
Qed.

Lemma bundle_name_collisions_witness :
  keeps_dot ascii_lower
  ∧ classify ascii_lower [s<"Makefile">] = s<"no_extension">
  ∧ classify ascii_lower [s<"x.NO_EXTENSION">] = s<".no_extension">
  ∧ combined_filename (classify ascii_lower [s<"Makefile">])
    = combined_filename (classify ascii_lower [s<"x.NO_EXTENSION">]).
Proof.
  split; [exact ascii_lower_keeps_dot |].
  assert (Heq : combined_filename (classify ascii_lower [s<"Makefile">])
                = combined_filename (classify ascii_lower [s<"x.NO_EXTENSION">]))
    by (by vm_compute).
  destruct (bundle_name_collisions ascii_lower [s<"Makefile">] [s<"x.NO_EXTENSION">] 1
              ascii_lower_keeps_dot (or_intror Heq)) as [H | [[H1 H2] | [H1 H2]]].
  - by vm_compute in H.
  - done.
  - by vm_compute in H1.
Defined.

(** ** Obtaining the decompiler *)

Lemma filter_ext_in {A} (P Q : A → Prop) `{!∀ x, Decision (P x)} `{!∀ x, Decision (Q x)}
    (l : list A) :
  (∀ x, x ∈ l → (P x ↔ Q x)) → filter P l = filter Q l.
Proof.
  induction l as [|x l IH]; intros Hext; [done |].
  rewrite !filter_cons. rewrite IH by (intros y Hy; apply Hext; by right).
  destruct (decide (P x)) as [HP|HP], (decide (Q x)) as [HQ|HQ]; try done.
  - destruct HQ. by apply (Hext x); [left |].
  - destruct HP. by apply (Hext x); [left |].
Qed.

Lemma filter_all {A} (P : A → Prop) `{!∀ x, Decision (P x)} (l : list A) :
  (∀ x, x ∈ l → P x) → filter P l = l.
Proof.
  induction l as [|x l IH]; intros Hall; [done |].
  rewrite filter_cons_True by (apply Hall; by left). f_equal. apply IH.
  intros y Hy. apply Hall. by right.
Qed.

Lemma filter_filter_in {A} (P Q R : A → Prop) `{!∀ x, Decision (P x)}
    `{!∀ x, Decision (Q x)} `{!∀ x, Decision (R x)} (l : list A) :
  (∀ x, x ∈ l → (P x ∧ Q x ↔ R x)) → filter P (filter Q l) = filter R l.
Proof.
  induction l as [|x l IH]; intros Hext; [done |].
  pose proof (Hext x ltac:(by left)) as Hx.
  rewrite (filter_cons Q), (filter_cons R).
  rewrite <- IH by (intros y Hy; apply Hext; by right).
  destruct (decide (Q x)) as [HQ|HQ].
  - rewrite filter_cons. destruct (decide (P x)) as [HP|HP], (decide (R x)) as [HR|HR];
      try done; tauto.
  - destruct (decide (R x)) as [HR|HR]; [tauto | done].
Qed.

Lemma elem_of_dir_unlink name d e : e ∈ dir_unlink name d ↔ e ∈ d ∧ e.1 ≠ name.
Proof. unfold dir_unlink. rewrite list_elem_of_filter. tauto. Qed.

Lemma dir_unlink_absent name d : name ∉ d.*1 → dir_unlink name d = d.
Proof.
  intros Hn. apply filter_all. intros [n c] Hin Heq. simpl in Heq. subst n.
  apply Hn. by apply (list_elem_of_fmap_2 fst d (name, c)).
Qed.

(** Removing the part file when it is there. *)
Lemma unlink_if_exists name d :
  (if dir_exists d name then dir_unlink name d else d) = dir_unlink name d.
Proof.
  unfold dir_exists. case_bool_decide as Hn; [done |]. by rewrite dir_unlink_absent.
Qed.

Lemma unlink_all d names :
  foldl (λ d old_jar, dir_unlink old_jar d) d names = filter (λ e, e.1 ∉ names) d.
Proof.
  revert d. induction names as [|n names IH]; intros d; simpl.
  - symmetry. apply filter_all. intros e _. apply not_elem_of_nil.
  - rewrite IH. unfold dir_unlink.
    apply filter_filter_in. intros e _. rewrite not_elem_of_cons. tauto.
Qed.

(** The loop over [glob('vineflower-*.jar')] removes exactly the files of
    that pattern. *)
Lemma unlink_old_jars d :
  foldl (λ d old_jar, dir_unlink old_jar d) d (dir_glob d)
  = filter (λ e, is_vineflower_jar e.1 = false) d.
Proof.
  rewrite unlink_all. apply filter_ext_in. intros [n c] Hin. simpl.
  unfold dir_glob. rewrite list_elem_of_filter. split.
  - intros Hn. destruct (is_vineflower_jar n) eqn:Hv; [| done].
    destruct Hn. split; [done |]. by apply (list_elem_of_fmap_2 fst d (n, c)).
  - intros Hv [Hv' _]. congruence.
Qed.

Lemma dir_glob_none d :
  (∀ e, e ∈ d → is_vineflower_jar e.1 = false) → dir_glob d = [].
Proof.
  intros H. unfold dir_glob. destruct (filter _ d.*1) as [|n l] eqn:Hf; [done |].
  assert (Hin : n ∈ filter (λ n, is_vineflower_jar n = true) d.*1) by (rewrite Hf; by left).
  apply list_elem_of_filter in Hin as [Hv Hin].
  apply list_elem_of_fmap in Hin as (e & -> & He). rewrite (H e He) in Hv. done.
Qed.

Lemma dir_read_written name content d :
  dir_read (dir_write name content d) name = Some content.
Proof.
  unfold dir_write.
  assert (H : ∀ l : Dir, (∀ e, e ∈ l → e.1 ≠ name) →
                         dir_read (l ++ [(name, content)]) name = Some content).
  { induction l as [|[n c] l IH]; intros Hl; simpl; [by rewrite decide_True |].
    rewrite decide_False.
    - apply IH. intros e He. apply Hl. by right.
    - intros ->. by apply (Hl (n, c)); [left |]. }
  apply H. intros e He. by apply elem_of_dir_unlink in He as [_ He].
Qed.

Lemma find_first_Some {A} (P : A → bool) (l : list A) a :
  find_first P l = Some a → a ∈ l ∧ P a = true.
Proof.
  induction l as [|x l IH]; simpl; [done |].
  destruct (P x) eqn:Hx.
  - intros [= <-]. split; [by left | done].
  - intros H. destruct (IH H). split; [by right | done].
Qed.

Lemma find_first_None {A} (P : A → bool) (l : list A) :
  find_first P l = None ↔ ∀ a, a ∈ l → P a = false.
Proof.
  induction l as [|x l IH]; simpl.
  - split; [| done]. intros _ a Ha. by apply elem_of_nil in Ha.
  - destruct (P x) eqn:Hx.
    + split; [done |]. intros H. specialize (H x ltac:(by left)). congruence.
    + rewrite IH. split.
      * intros H a Ha. apply elem_of_cons in Ha as [->|Ha]; [done | by apply H].
      * intros H a Ha. apply H. by right.
Qed.

(** The asset found is the first that passes the test. *)
Lemma find_first_first {A} (P : A → bool) (l : list A) a :
  find_first P l = Some a →
  ∃ before after, l = before ++ a :: after ∧ ∀ b, b ∈ before → P b = false.
Proof.
  induction l as [|x l IH]; simpl; [done |].
  destruct (P x) eqn:Hx.
  - intros [= <-]. exists [], l. split; [done |]. intros b Hb. by apply elem_of_nil in Hb.
  - intros H. destruct (IH H) as (before & after & -> & Hb).
    exists (x :: before), after. split; [done |].
    intros b Hin. apply elem_of_cons in Hin as [->|Hin]; [done | by apply Hb].
Qed.

(** X12. The asset [setup_decompiler] downloads is a [.jar] of the
    release: the first whose name has no [-slim] in it when there is one,
    and the first [.jar] otherwise; no asset is picked exactly when the
    release has no [.jar]. *)
Theorem pick_asset_prefers_full_jar assets :
  (pick_asset assets = None ↔ ∀ a, a ∈ assets → is_jar a = false)
  ∧ ∀ a, pick_asset assets = Some a →
         is_jar a = true
         ∧ ∃ before after,
             assets = before ++ a :: after
             ∧ ((is_full_jar a = true ∧ ∀ b, b ∈ before → is_full_jar b = false)
                ∨ ((∀ b, b ∈ assets → is_full_jar b = false)
                   ∧ ∀ b, b ∈ before → is_jar b = false)).
Proof.
  unfold pick_asset. split.
  - destruct (find_first is_full_jar assets) as [a|] eqn:Hfull.
    + split; [done |]. intros H. apply find_first_Some in Hfull as [Hin Ha].
      unfold is_full_jar in Ha. rewrite (H a Hin) in Ha. done.
    + apply find_first_None.
  - intros a. destruct (find_first is_full_jar assets) as [a'|] eqn:Hfull.
    + intros [= <-]. pose proof (find_first_Some _ _ _ Hfull) as [_ Ha].
      split; [unfold is_full_jar in Ha; by apply andb_true_iff in Ha as [Ha _] |].
      destruct (find_first_first _ _ _ Hfull) as (before & after & Heq & Hb).
      exists before, after. split; [done |]. by left.
    + intros Hjar. pose proof (find_first_Some _ _ _ Hjar) as [_ Ha]. split; [done |].
      destruct (find_first_first _ _ _ Hjar) as (before & after & Heq & Hb).
      exists before, after. split; [done |]. right. split; [| done].
      by apply find_first_None.
Qed.

(** *** What [setup_decompiler] leaves in the script directory *)

Lemma elem_of_dir_glob d n :
  n ∈ dir_glob d ↔ is_vineflower_jar n = true ∧ n ∈ d.*1.
Proof. unfold dir_glob. by rewrite list_elem_of_filter. Qed.

Lemma is_vineflower_jar_endswith n :
  is_vineflower_jar n = true → endswith s<".jar"> n = true.
Proof.
  unfold is_vineflower_jar, endswith. intros H. apply andb_true_iff in H as [_ H].
  apply bool_decide_eq_true in H. apply bool_decide_eq_true.
  etrans; [exact H | apply suffix_drop].
Qed.

Lemma fallback_run temp d :
  fallback (Some temp) d = (head (dir_glob (dir_unlink temp d)), dir_unlink temp d).
Proof. unfold fallback. by rewrite unlink_if_exists. Qed.

Lemma dir_unlink_write name content d :
  dir_unlink name (dir_write name content d) = dir_unlink name d.
Proof.
  unfold dir_write, dir_unlink. rewrite filter_app, filter_singleton_False by (simpl; tauto).
  rewrite app_nil_r. apply filter_filter_in. intros e _. tauto.
Qed.

(** The directory after a download that failed: the files it held, without
    those of the pattern [vineflower-*.jar] and without the part file. *)
Definition after_failed_download (temp : pystr) (d : Dir) : Dir :=
  filter (λ e, is_vineflower_jar e.1 = false ∧ e.1 ≠ temp) d.

Lemma unlink_temp_old_jars temp d :
  dir_unlink temp (foldl (λ d old_jar, dir_unlink old_jar d) d (dir_glob d))
  = after_failed_download temp d.
Proof.
  rewrite unlink_old_jars. unfold dir_unlink, after_failed_download.
  apply filter_filter_in. intros e _. tauto.
Qed.

Lemma dir_glob_after_failed_download temp d : dir_glob (after_failed_download temp d) = [].
Proof.
  apply dir_glob_none. intros e He. unfold after_failed_download in He.
  by apply list_elem_of_filter in He as [[Hv _] _].
Qed.

Lemma setup_failed_run net d assets asset :
  api_latest net = ApiRelease assets →
  pick_asset assets = Some asset →
  dir_exists d (asset_name asset) = false →
  (∀ content, fetch net (asset_url asset) ≠ DownloadOk content) →
  setup_decompiler net d
  = (None, after_failed_download (with_suffix (asset_name asset) s<".jar.part">) d).
Proof.
  intros Hapi Hpick Hnew Hfail. unfold setup_decompiler. rewrite Hapi, Hpick, Hnew.
  destruct (fetch net (asset_url asset)) as [|got|content] eqn:Hf.
  - rewrite fallback_run, unlink_temp_old_jars.
    by rewrite dir_glob_after_failed_download.
  - rewrite fallback_run, dir_unlink_write, unlink_temp_old_jars.
    by rewrite dir_glob_after_failed_download.
  - by destruct (Hfail content).
Qed.

(** X13. A download that fails costs the decompiler that was installed:
    when the release names a jar that is not yet in the script directory
    and its download fails, before or after the part file was opened,
    [setup_decompiler] returns no decompiler, and the directory it leaves
    holds no [vineflower-*.jar] any more and no part file; its other
    files are untouched. When the request to the releases API fails
    instead, the directory is left as it was and the first
    [vineflower-*.jar] of it, if any, is the decompiler. *)
Theorem failed_download_removes_decompiler net d :
  (∀ assets asset,
     api_latest net = ApiRelease assets →
     pick_asset assets = Some asset →
     dir_exists d (asset_name asset) = false →
     (∀ content, fetch net (asset_url asset) ≠ DownloadOk content) →
     setup_decompiler net d
     = (None, after_failed_download (with_suffix (asset_name asset) s<".jar.part">) d)
     ∧ dir_glob (setup_decompiler net d).2 = [])
  ∧ (api_latest net = ApiError → setup_decompiler net d = (head (dir_glob d), d)).
Proof.
  split.
  - intros assets asset Hapi Hpick Hnew Hfail.
    pose proof (setup_failed_run net d assets asset Hapi Hpick Hnew Hfail) as Hrun.
    split; [exact Hrun |]. rewrite Hrun. apply dir_glob_after_failed_download.
  - intros Hapi. unfold setup_decompiler. by rewrite Hapi.
Qed.

(** A directory with an installed decompiler, and a network on which the
    download of the newer one breaks off. *)
Definition installed_dir : Dir :=
  [(s<"jarpy.py">, [Byte.x23]); (s<"vineflower-1.0.jar">, [Byte.x50; Byte.x4b])].
Definition broken_net : Net :=
  mkNet (ApiRelease [mkAsset s<"vineflower-1.1-slim.jar"> s<"u1">;
                     mkAsset s<"vineflower-1.1.jar"> s<"u2">])
        (λ _, DownloadBroken [Byte.x50]).

Lemma failed_download_removes_decompiler_witness :
  setup_decompiler broken_net installed_dir = (None, [(s<"jarpy.py">, [Byte.x23])]).
Proof.
  destruct (proj1 (failed_download_removes_decompiler broken_net installed_dir)
              [mkAsset s<"vineflower-1.1-slim.jar"> s<"u1">;
               mkAsset s<"vineflower-1.1.jar"> s<"u2">]
              (mkAsset s<"vineflower-1.1.jar"> s<"u2">)) as [Hrun _].
  - reflexivity.
  - by vm_compute.
  - by vm_compute.
  - intros content. simpl. discriminate.
  - rewrite Hrun. by vm_compute.
Defined.

(** After a download that succeeded the directory holds the new jar, whole,
    and the files it held that are neither an old jar nor the part file. *)
Lemma setup_downloaded_run net d assets asset content :
  api_latest net = ApiRelease assets →
  pick_asset assets = Some asset →
  dir_exists d (asset_name asset) = false →
  fetch net (asset_url asset) = DownloadOk content →
  setup_decompiler net d
  = (Some (asset_name asset),
     dir_unlink (asset_name asset)
       (after_failed_download (with_suffix (asset_name asset) s<".jar.part">) d)
     ++ [(asset_name asset, content)]).
Proof.
  intros Hapi Hpick Hnew Hf. unfold setup_decompiler. rewrite Hapi, Hpick, Hnew, Hf.
  f_equal. unfold dir_rename. rewrite dir_read_written. f_equal.
  set (temp := with_suffix (asset_name asset) s<".jar.part">).
  rewrite <- unlink_temp_old_jars. fold temp.
  set (d1 := foldl _ d (dir_glob d)).
  unfold dir_write, dir_unlink.
  rewrite (filter_filter_in _ _
             (λ e : pystr * list Byte.byte, e.1 ≠ temp ∧ e.1 ≠ asset_name asset))
    by (intros e _; tauto).
  rewrite filter_app, filter_singleton_False by (simpl; tauto). rewrite app_nil_r.
  apply filter_ext_in. intros e He. apply list_elem_of_filter in He as [He _]. tauto.
Qed.

(** X14. The download is atomic and the decompiler returned is there:
    whatever the network does, every file of the directory
    [setup_decompiler] leaves is a file it found, unchanged, or the jar of
    the release with its whole content, so that no partly downloaded file
    is left under any name; and a decompiler that is returned is a file of
    that directory whose name ends in [.jar]. [cli] runs [main] only
    then. *)
Theorem setup_decompiler_atomic lower net env args script_dir input_dir d :
  let r := (setup_decompiler net d).1 in
  let d' := (setup_decompiler net d).2 in
  (∀ e, e ∈ d' →
        e ∈ d
        ∨ ∃ assets asset,
            api_latest net = ApiRelease assets ∧ pick_asset assets = Some asset
            ∧ e.1 = asset_name asset ∧ fetch net (asset_url asset) = DownloadOk e.2)
  ∧ (∀ n, r = Some n → n ∈ d'.*1 ∧ endswith s<".jar"> n = true)
  ∧ (cli lower net env args script_dir input_dir d).2 = d'
  ∧ (cli lower net env args script_dir input_dir d).1
    = match r with
      | Some _ => main lower env args script_dir input_dir
      | None => ret tt
      end.
Proof.
  intros r d'.
  assert (Hcli : (cli lower net env args script_dir input_dir d).2 = d'
                 ∧ (cli lower net env args script_dir input_dir d).1
                   = match r with
                     | Some _ => main lower env args script_dir input_dir
                     | None => ret tt
                     end).
  { subst r d'. unfold cli. by destruct (setup_decompiler net d) as [[n|] d0]. }
  split; [| split; [| exact Hcli]]; subst r d'.
  - intros e.
    destruct (api_latest net) as [|assets] eqn:Hapi.
    { unfold setup_decompiler. rewrite Hapi. by left. }
    destruct (pick_asset assets) as [asset|] eqn:Hpick.
    2:{ unfold setup_decompiler. rewrite Hapi, Hpick. by left. }
    destruct (dir_exists d (asset_name asset)) eqn:Hnew.
    { unfold setup_decompiler. rewrite Hapi, Hpick, Hnew. by left. }
    destruct (fetch net (asset_url asset)) as [|got|content] eqn:Hf.
    + rewrite (setup_failed_run net d assets asset) by (done || congruence).
      simpl. intros He. left. unfold after_failed_download in He.
      by apply list_elem_of_filter in He as [_ He].
    + rewrite (setup_failed_run net d assets asset) by (done || congruence).
      simpl. intros He. left. unfold after_failed_download in He.
      by apply list_elem_of_filter in He as [_ He].
    + rewrite (setup_downloaded_run net d assets asset content) by done.
      simpl. intros He. apply elem_of_app in He as [He | He].
      * left. apply elem_of_dir_unlink in He as [He _].
        unfold after_failed_download in He. by apply list_elem_of_filter in He as [_ He].
      * right. apply list_elem_of_singleton in He as ->. by exists assets, asset.
  - intros n. unfold setup_decompiler.
    assert (Hglob : ∀ d0, head (dir_glob d0) = Some n →
                          n ∈ d0.*1 ∧ endswith s<".jar"> n = true).
    { intros d0 Hh. apply head_Some_elem_of, elem_of_dir_glob in Hh as [Hv Hin].
      split; [done | by apply is_vineflower_jar_endswith]. }
    destruct (api_latest net) as [|assets] eqn:Hapi; [apply Hglob |].
    destruct (pick_asset assets) as [asset|] eqn:Hpick; [| done].
    assert (Hjar : endswith s<".jar"> (asset_name asset) = true).
    { unfold pick_asset in Hpick.
      destruct (find_first is_full_jar assets) as [a|] eqn:Hfull.
      - injection Hpick as ->. apply find_first_Some in Hfull as [_ Ha].
        unfold is_full_jar in Ha. by apply andb_true_iff in Ha as [Ha _].
      - by apply find_first_Some in Hpick as [_ Ha]. }
    destruct (dir_exists d (asset_name asset)) eqn:Hnew.
    + simpl. intros [= <-]. split; [| done]. by apply bool_decide_eq_true in Hnew.
    + destruct (fetch net (asset_url asset)) as [|got|content] eqn:Hf.
      * rewrite fallback_run. apply Hglob.
      * rewrite fallback_run. apply Hglob.
      * simpl. intros [= <-]. split; [| done].
        unfold dir_rename. rewrite dir_read_written. rewrite fmap_app. simpl.
        apply elem_of_app. right. by left.
Qed.

(** X15. [setup_decompiler] is idempotent: run again on the directory it
    left, against the same answers of the network, it returns the same
    decompiler and leaves that directory as it is. *)
Theorem setup_decompiler_idempotent net d :
  setup_decompiler net (setup_decompiler net d).2 = setup_decompiler net d.
Proof.
  destruct (api_latest net) as [|assets] eqn:Hapi.
  { unfold setup_decompiler. rewrite Hapi. done. }
  destruct (pick_asset assets) as [asset|] eqn:Hpick.
  2:{ unfold setup_decompiler. by rewrite Hapi, Hpick. }
  destruct (dir_exists d (asset_name asset)) eqn:Hnew.
  { unfold setup_decompiler. rewrite Hapi, Hpick, Hnew. simpl. by rewrite Hnew. }
  set (temp := with_suffix (asset_name asset) s<".jar.part">).
  assert (Hnew' : dir_exists (after_failed_download temp d) (asset_name asset) = false).
  { apply bool_decide_eq_false. apply bool_decide_eq_false in Hnew. intros Hin. apply Hnew.
    apply list_elem_of_fmap in Hin as (e & -> & He). unfold after_failed_download in He.
    apply list_elem_of_filter in He as [_ He]. by apply (list_elem_of_fmap_2 fst d e). }
  assert (Hidem : after_failed_download temp (after_failed_download temp d)
                  = after_failed_download temp d).
  { unfold after_failed_download at 1. apply filter_all. intros e He.
    unfold after_failed_download in He. by apply list_elem_of_filter in He as [He _]. }
  destruct (fetch net (asset_url asset)) as [|got|content] eqn:Hf.
  - rewrite (setup_failed_run net d assets asset) by (done || congruence). cbn [snd].
    rewrite (setup_failed_run net _ assets asset) by (done || congruence).
    fold temp. by rewrite Hidem.
  - rewrite (setup_failed_run net d assets asset) by (done || congruence). cbn [snd].
    rewrite (setup_failed_run net _ assets asset) by (done || congruence).
    fold temp. by rewrite Hidem.
  - rewrite (setup_downloaded_run net d assets asset content) by done. cbn [snd].
    unfold setup_decompiler. rewrite Hapi, Hpick.
    unfold dir_exists at 1. rewrite bool_decide_true; [done |].
    rewrite fmap_app. simpl. apply elem_of_app. right. by left.
Qed.
